(** * Sparse Merkle tree client (circuits/smt_exclusion/client/smt.ts)

    A shallow embedding of the off-chain sparse Merkle tree used by the
    smt_exclusion circuit, together with the properties of its
    specification.

    The embedding follows the TypeScript source function by function:
    - [bigint] values are [Z];
    - a [number[]] holding integral numbers is a [list Z];
    - a JavaScript [Map<string, bigint>] is an association list kept in
      insertion order (module [JsMap]), a [Set<string>] is a list of keys
      (module [JsSet]);
    - exceptions are the [Throw] results of a small error monad that also
      reads the module-level variable [poseidonInstance]. *)

From Stdlib Require Import ZArith List Lia Bool Ascii String Permutation.
Import ListNotations.

Local Open Scope string_scope.
Local Open Scope Z_scope.

(* ------------------------------------------------------------------------- *)
(** ** JavaScript values and exceptions *)

(** The exceptions that the modelled code can raise. *)
Inductive error : Type :=
| PoseidonNotInitialized
    (* Error("Poseidon not initialized. Call initPoseidon() first.") *)
| TypeError_undefined_to_BigInt
    (* BigInt(undefined): "Cannot convert undefined to a BigInt" *)
| SyntaxError_BigInt
    (* BigInt("12a"): "Cannot convert 12a to a BigInt" *).

Inductive result (A : Type) : Type :=
| Ok (a : A)
| Throw (e : error).

Arguments Ok {A} a.
Arguments Throw {A} e.

Definition is_throw {A} (r : result A) : bool :=
  match r with Ok _ => false | Throw _ => true end.

(** [a ?? b] of JavaScript, for a left operand that is a value or
    [undefined]. *)
Definition nullish {A} (o : option A) (d : A) : A :=
  match o with Some a => a | None => d end.

Notation "o ?? d" := (nullish o d) (at level 45, left associativity).

(* ------------------------------------------------------------------------- *)
(** ** Printing and parsing of bigints *)

Module BigIntString.

Definition digit_alphabet : list ascii :=
  list_ascii_of_string "0123456789abcdefghijklmnopqrstuvwxyz".

Definition digit_char (d : Z) : ascii :=
  nth (Z.to_nat d) digit_alphabet "0"%char.

(** Digits of a non-negative number, most significant first, produced by
    repeated division and pushed in front of [acc]. *)
Fixpoint digits_fuel (fuel : nat) (radix n : Z) (acc : string) : string :=
  match fuel with
  | O => acc
  | S fuel' =>
      let acc' := String (digit_char (n mod radix)) acc in
      if n / radix =? 0 then acc'
      else digits_fuel fuel' radix (n / radix) acc'
  end.

Definition digits (radix n : Z) : string :=
  digits_fuel (S (Z.to_nat (Z.log2 n))) radix n "".

(** [n.toString(radix)] for a bigint [n] and a radix in 2..36. *)
Definition toString_radix (radix n : Z) : string :=
  if n <? 0 then String "-"%char (digits radix (- n)) else digits radix n.

(** [n.toString()]. *)
Definition toString (n : Z) : string := toString_radix 10 n.

Definition digit_value (radix : Z) (c : ascii) : option Z :=
  let n := Z.of_nat (nat_of_ascii c) in
  let v := if (48 <=? n) && (n <=? 57) then n - 48
           else if (97 <=? n) && (n <=? 122) then n - 87
           else radix in
  if v <? radix then Some v else None.

Fixpoint parse_digits (radix : Z) (s : string) (acc : Z) : option Z :=
  match s with
  | EmptyString => Some acc
  | String c s' =>
      match digit_value radix c with
      | Some d => parse_digits radix s' (radix * acc + d)
      | None => None
      end
  end.

Definition parse_nonempty (radix : Z) (s : string) : option Z :=
  match s with
  | EmptyString => None
  | _ => parse_digits radix s 0
  end.

(** [BigInt(s)] on the strings this program passes to it: an optionally
    negated run of decimal digits (and the empty string, which is 0n).
    Any other text is a SyntaxError here; the white space, the [0x],
    [0o] and [0b] prefixes that JavaScript also accepts never occur in
    the keys written by [toString]. *)
Definition BigInt_of_string (s : string) : result Z :=
  match s with
  | EmptyString => Ok 0
  | String c s' =>
      let r := if Ascii.eqb c "-"%char
               then option_map Z.opp (parse_nonempty 10 s')
               else parse_nonempty 10 s in
      match r with Some z => Ok z | None => Throw SyntaxError_BigInt end
  end.

(** [s.padStart(targetLength, padString)]. *)
Fixpoint pad_fill (n : nat) (padString cur : string) : string :=
  match n with
  | O => ""
  | S n' =>
      match cur with
      | String c cur' => String c (pad_fill n' padString cur')
      | EmptyString =>
          match padString with
          | String c p' => String c (pad_fill n' padString p')
          | EmptyString => ""
          end
      end
  end.

Definition padStart (targetLength : nat) (padString s : string) : string :=
  pad_fill (targetLength - String.length s) padString padString ++ s.

End BigIntString.

Import BigIntString.

(* ------------------------------------------------------------------------- *)
(** ** Map<string, bigint> and Set<string> *)

(** A JavaScript [Map] iterates in insertion order; [set] on a present key
    replaces its value where it stands, [set] on a new key appends. *)
Module JsMap.

Definition t : Type := list (string * Z).

Definition empty : t := [].

Definition size (m : t) : nat := List.length m.

Definition entries (m : t) : list (string * Z) := m.

Definition keys (m : t) : list string := map fst m.

Fixpoint get (k : string) (m : t) : option Z :=
  match m with
  | [] => None
  | (k', v) :: m' => if String.eqb k k' then Some v else get k m'
  end.

Fixpoint set (k : string) (v : Z) (m : t) : t :=
  match m with
  | [] => [(k, v)]
  | (k', v') :: m' =>
      if String.eqb k k' then (k, v) :: m' else (k', v') :: set k v m'
  end.

End JsMap.

Module JsSet.

Definition t : Type := list string.

Definition empty : t := [].

Fixpoint has (k : string) (s : t) : bool :=
  match s with
  | [] => false
  | k' :: s' => if String.eqb k k' then true else has k s'
  end.

Definition add (k : string) (s : t) : t :=
  if has k s then s else (s ++ [k])%list.

End JsSet.

(* ------------------------------------------------------------------------- *)
(** ** The module-level hasher and the exception monad *)

(** What [buildPoseidon()] delivers, seen through [poseidonHash2]: the map
    [(left, right) |-> poseidon.F.toObject(poseidon([left, right]))].  The
    hash itself lives in circomlibjs, so it stays a parameter. *)
Definition Poseidon : Type := Z -> Z -> Z.

(** A computation reads the module variable [poseidonInstance]
    ([None] is [null]) and either returns or throws. *)
Definition M (A : Type) : Type := option Poseidon -> result A.

Definition ret {A} (a : A) : M A := fun _ => Ok a.

Definition throw {A} (e : error) : M A := fun _ => Throw e.

Definition bind {A B} (c : M A) (k : A -> M B) : M B :=
  fun inst =>
    match c inst with
    | Ok a => k a inst
    | Throw e => Throw e
    end.

Definition lift {A} (r : result A) : M A := fun _ => r.

Notation "x <- c ;; k" := (bind c (fun x => k))
  (at level 100, c at next level, right associativity).
Notation "' p <- c ;; k" := (bind c (fun x => let p := x in k))
  (at level 100, p pattern, c at next level, right associativity).

(** [for (const x of l) { s = body(x, s) }] *)
Fixpoint for_of {A St} (l : list A) (body : A -> St -> M St) (s : St)
  : M St :=
  match l with
  | [] => ret s
  | x :: l' => s' <- body x s ;; for_of l' body s'
  end.

(** [for (let i = start; i < start + count; i++) { s = body(i, s) }] *)
Fixpoint for_range {St} (start count : nat) (body : nat -> St -> M St)
  (s : St) : M St :=
  match count with
  | O => ret s
  | S count' => s' <- body start s ;; for_range (S start) count' body s'
  end.

(** The same loop for a body that cannot throw. *)
Fixpoint for_pure {St} (start count : nat) (body : nat -> St -> St) (s : St)
  : St :=
  match count with
  | O => s
  | S count' => for_pure (S start) count' body (body start s)
  end.

(** [BigInt(x)] for an array element [x]: an integral number or, past the
    end of the array, [undefined]. *)
Definition BigInt_of_element (x : option Z) : M Z :=
  match x with
  | Some z => ret z
  | None => throw TypeError_undefined_to_BigInt
  end.

(** A [bigint[]]; reading is always done inside the array's bounds by the
    code below, the default of [nth] is never observed. *)
Definition array_get (a : list Z) (i : nat) : Z := nth i a 0.

Fixpoint array_set (i : nat) (v : Z) (a : list Z) : list Z :=
  match a, i with
  | [], _ => []
  | _ :: a', O => v :: a'
  | x :: a', S i' => x :: array_set i' v a'
  end.

(* ------------------------------------------------------------------------- *)
(** ** smt.ts *)

(** [initPoseidon] is [async]:
      [if (!poseidonInstance) { poseidonInstance = await buildPoseidon(); }]
    A call runs up to the [await]; the assignment is made later, when the
    promise of [buildPoseidon()] is fulfilled, and other code runs in
    between.  [initPoseidon] is what the call itself does: it reads the
    variable and, when it holds no hasher, calls [buildPoseidon()] and
    suspends; otherwise it is over at once.  The variable is not written
    at the call. *)
Inductive suspension : Type :=
| Completed
| Awaits_buildPoseidon.

Definition initPoseidon (poseidonInstance : option Poseidon) : suspension :=
  match poseidonInstance with
  | None => Awaits_buildPoseidon
  | Some _ => Completed
  end.

(** The rest of a suspended [initPoseidon], run when the awaited promise
    has delivered the hasher [built]: the assignment, whatever the
    variable holds by then (it is not read again). *)
Definition initPoseidon_resume (built : Poseidon)
  (poseidonInstance : option Poseidon) : option Poseidon :=
  Some built.

Definition getPoseidon : M Poseidon :=
  fun poseidonInstance =>
    match poseidonInstance with
    | None => Throw PoseidonNotInitialized
    | Some p => Ok p
    end.

Definition TREE_DEPTH : nat := 254.

Definition poseidonHash2 (left right : Z) : M Z :=
  poseidon <- getPoseidon ;;
  ret (poseidon left right).

Definition bytes16ToField (bytes : list Z) (start : nat) : M Z :=
  st <- for_range 0 16
          (fun i '(result, multiplier) =>
             b <- BigInt_of_element (nth_error bytes (start + i)) ;;
             ret (result + b * multiplier, multiplier * 256))
          (0, 1) ;;
  ret (fst st).

Definition pubkeyToIndex (pubkey : list Z) : M Z :=
  low <- bytes16ToField pubkey 0 ;;
  high <- bytes16ToField pubkey 16 ;;
  poseidonHash2 low high.

Definition fieldToHex (f : Z) : string :=
  "0x" ++ padStart 64 "0" (toString_radix 16 f).

Definition getPathBits (index : Z) : list bool :=
  fst (for_pure 0 TREE_DEPTH
         (fun _ '(bits, val) =>
            ((bits ++ [Z.land val 1 =? 1])%list, Z.shiftr val 1))
         ([], index)).

Record SparseMerkleTree : Type := {
  leaves : JsMap.t;
  defaultHashes : list Z
}.

Record MerkleProof : Type := {
  siblings : list Z;
  leafValue : Z
}.

(** A method returns its value together with the object it leaves behind. *)
Definition method (A : Type) : Type :=
  SparseMerkleTree -> M (A * SparseMerkleTree).

(** [new SparseMerkleTree()]. [new Array(TREE_DEPTH + 1)] is filled from
    index 0 upwards, each slot written before it is read. *)
Definition constructor : M SparseMerkleTree :=
  let defaultHashes := repeat 0 (TREE_DEPTH + 1) in
  let defaultHashes := array_set 0 0 defaultHashes in
  defaultHashes <- for_range 1 TREE_DEPTH
                     (fun i defaultHashes =>
                        let prev := array_get defaultHashes (i - 1) in
                        h <- poseidonHash2 prev prev ;;
                        ret (array_set i h defaultHashes))
                     defaultHashes ;;
  ret {| leaves := JsMap.empty; defaultHashes := defaultHashes |}.

(** [insert(pubkey, value = 1n)]: an omitted [value] is [None]. *)
Definition insert (pubkey : list Z) (value : option Z) : method unit :=
  fun this =>
    let value := value ?? 1 in
    index <- pubkeyToIndex pubkey ;;
    ret (tt, {| leaves := JsMap.set (toString index) value (leaves this);
                defaultHashes := defaultHashes this |}).

Definition get (pubkey : list Z) : method Z :=
  fun this =>
    index <- pubkeyToIndex pubkey ;;
    ret (JsMap.get (toString index) (leaves this) ?? 0, this).

Definition isBlacklisted (pubkey : list Z) : method bool :=
  fun this =>
    '(v, this) <- get pubkey this ;;
    ret (negb (v =? 0), this).

(** The copy of [this.leaves] into a fresh map that both [getRoot] and
    [getMerkleProof] start from. *)
Definition copyLeaves (this : SparseMerkleTree) : JsMap.t :=
  fold_left (fun currentLevel '(indexStr, value) =>
               JsMap.set indexStr value currentLevel)
            (JsMap.entries (leaves this)) JsMap.empty.

(** One pass of the inner loop of [getRoot]. *)
Definition rootLevelEntry (this : SparseMerkleTree) (level : nat)
  (currentLevel : JsMap.t) (entry : string * Z) (nextLevel : JsMap.t)
  : M JsMap.t :=
  let '(indexStr, value) := entry in
  index <- lift (BigInt_of_string indexStr) ;;
  let parentIndex := Z.shiftr index 1 in
  let isRightChild := Z.land index 1 =? 1 in
  let siblingIndex := if isRightChild then index - 1 else index + 1 in
  let sibling :=
    JsMap.get (toString siblingIndex) currentLevel
      ?? array_get (defaultHashes this) level in
  let '(left_, right_) :=
    if isRightChild then (sibling, value) else (value, sibling) in
  parentValue <- poseidonHash2 left_ right_ ;;
  ret (JsMap.set (toString parentIndex) parentValue nextLevel).

(** The level-by-level loop of [getRoot]: the map left in [currentLevel]
    after [TREE_DEPTH] passes. *)
Definition rootLevels (this : SparseMerkleTree) : M JsMap.t :=
  for_range 0 TREE_DEPTH
    (fun level currentLevel =>
       for_of (JsMap.entries currentLevel)
         (rootLevelEntry this level currentLevel) JsMap.empty)
    (copyLeaves this).

Definition getRoot : method Z :=
  fun this =>
    if (JsMap.size (leaves this) =? 0)%nat
    then ret (array_get (defaultHashes this) TREE_DEPTH, this)
    else
      currentLevel <- rootLevels this ;;
      ret (JsMap.get "0" currentLevel
             ?? array_get (defaultHashes this) TREE_DEPTH, this).

(** [posAtLevel] of [getMerkleProof]. An index past the end of [pathBits]
    reads [undefined], which is falsy. *)
Definition posAtLevel (pathBits : list bool) (level : nat) : Z :=
  for_pure level (TREE_DEPTH - level)
    (fun i posAtLevel =>
       if nth i pathBits false
       then Z.lor posAtLevel (Z.shiftl 1 (Z.of_nat (i - level)))
       else posAtLevel)
    0.

(** One pass of the loop that builds the next level in [getMerkleProof]. *)
Definition proofLevelEntry (this : SparseMerkleTree) (level : nat)
  (currentLevel : JsMap.t) (entry : string * Z)
  (st : JsMap.t * JsSet.t) : M (JsMap.t * JsSet.t) :=
  let '(indexStr, value) := entry in
  let '(nextLevel, processedParents) := st in
  idx <- lift (BigInt_of_string indexStr) ;;
  let parentIdx := Z.shiftr idx 1 in
  let parentKey := toString parentIdx in
  if JsSet.has parentKey processedParents then ret st
  else
    let processedParents := JsSet.add parentKey processedParents in
    let isRightChild := Z.land idx 1 =? 1 in
    let sibIdx := if isRightChild then idx - 1 else idx + 1 in
    let sib :=
      JsMap.get (toString sibIdx) currentLevel
        ?? array_get (defaultHashes this) level in
    let '(left_, right_) :=
      if isRightChild then (sib, value) else (value, sib) in
    h <- poseidonHash2 left_ right_ ;;
    ret (JsMap.set parentKey h nextLevel, processedParents).

(** The body of the level loop of [getMerkleProof]. *)
Definition proofLevel (this : SparseMerkleTree) (pathBits : list bool)
  (level : nat) (st : list Z * JsMap.t) : M (list Z * JsMap.t) :=
  let '(siblings, currentLevel) := st in
  let posAtLevel := posAtLevel pathBits level in
  let isRight := nth level pathBits false in
  let siblingPos := if isRight then posAtLevel - 1 else posAtLevel + 1 in
  let sibling :=
    JsMap.get (toString siblingPos) currentLevel
      ?? array_get (defaultHashes this) level in
  let siblings := (siblings ++ [sibling])%list in
  '(nextLevel, _) <- for_of (JsMap.entries currentLevel)
                       (proofLevelEntry this level currentLevel)
                       (JsMap.empty, JsSet.empty) ;;
  ret (siblings, nextLevel).

Definition getMerkleProof (pubkey : list Z) : method MerkleProof :=
  fun this =>
    index <- pubkeyToIndex pubkey ;;
    let pathBits := getPathBits index in
    let leafValue := JsMap.get (toString index) (leaves this) ?? 0 in
    '(siblings, _) <- for_range 0 TREE_DEPTH (proofLevel this pathBits)
                        ([], copyLeaves this) ;;
    ret ({| siblings := siblings; leafValue := leafValue |}, this).

Definition getEmptyRoot : method Z :=
  fun this => ret (array_get (defaultHashes this) TREE_DEPTH, this).

(* ------------------------------------------------------------------------- *)
(** ** Vocabulary of the properties *)

(** The entry a level map holds for position [i], if any. *)
Definition lookup (m : JsMap.t) (i : Z) : option Z :=
  JsMap.get (toString i) m.

(** The value of the node at position [i] of a level whose empty subtrees
    hash to [d]. *)
Definition node (m : JsMap.t) (d : Z) (i : Z) : Z := lookup m i ?? d.

(** A level map of a tree with [k] levels below the root: distinct keys,
    each the decimal text of a position below [2 ^ k]. *)
Definition wf_level (k : nat) (m : JsMap.t) : Prop :=
  NoDup (JsMap.keys m) /\
  forall key, In key (JsMap.keys m) ->
              exists i, key = toString i /\ 0 <= i < 2 ^ Z.of_nat k.

(** The Merkle hash of the subtree of height [l] at position [q] over the
    leaf assignment [f0]. *)
Fixpoint subtree (H : Poseidon) (f0 : Z -> Z) (l : nat) (q : Z) : Z :=
  match l with
  | O => f0 q
  | S l' => H (subtree H f0 l' (2 * q)) (subtree H f0 l' (2 * q + 1))
  end.

(** What one pass over a level must produce: the parents of the entries of
    [cur], each hashed from its two children in left-right order. *)
Definition level_step (H : Poseidon) (d : Z) (k : nat)
  (cur next : JsMap.t) : Prop :=
  wf_level k next /\
  (forall q x, 0 <= q -> lookup next q = Some x ->
               x = H (node cur d (2 * q)) (node cur d (2 * q + 1))) /\
  (forall q, 0 <= q -> lookup next q = None ->
             lookup cur (2 * q) = None /\ lookup cur (2 * q + 1) = None).

(** The verifier's recomputation of the root from a leaf value and its
    siblings: at level [i] the running value is the left argument when bit
    [i] of the index is 0 and the right argument when it is 1. *)
Fixpoint fold_siblings (H : Poseidon) (index : Z) (level : nat)
  (current : Z) (siblings : list Z) : Z :=
  match siblings with
  | [] => current
  | s :: rest =>
      let parent := if Z.testbit index (Z.of_nat level)
                    then H s current else H current s in
      fold_siblings H index (S level) parent rest
  end.

(** The position next to [p] under the same parent. *)
Definition sibling_of (p : Z) : Z := if Z.odd p then p - 1 else p + 1.

(** The ladder of default hashes. *)
Definition ladder_ok (H : Poseidon) (dh : list Z) : Prop :=
  List.length dh = 255%nat /\
  array_get dh 0 = 0 /\
  forall i, (1 <= i <= 254)%nat ->
            array_get dh i = H (array_get dh (i - 1)) (array_get dh (i - 1)).

(** A 32-byte identity. *)
Definition identity32 (pubkey : list Z) : Prop :=
  List.length pubkey = 32%nat /\ Forall (fun b => 0 <= b < 256) pubkey.

(** Little-endian value of a run of bytes. *)
Fixpoint le_value (bytes : list Z) : Z :=
  match bytes with
  | [] => 0
  | b :: rest => b + 256 * le_value rest
  end.

(** The [n] low bytes of [k], least significant first. *)
Fixpoint le_bytes (n : nat) (k : Z) : list Z :=
  match n with
  | O => []
  | S n' => k mod 256 :: le_bytes n' (k / 256)
  end.

Definition low128 (pubkey : list Z) : Z := le_value (firstn 16 pubkey).

Definition high128 (pubkey : list Z) : Z :=
  le_value (firstn 16 (skipn 16 pubkey)).

(** The value the code computes for the parent of the entry at position
    [i] holding [v]. *)
Definition parent_value (H : Poseidon) (d : Z) (cur : JsMap.t) (i v : Z)
  : Z :=
  if Z.odd i then H (node cur d (i - 1)) v else H v (node cur d (i + 1)).

(** What the next level holds once the entries [pre] of the current level
    have been visited. *)
Definition visited (H : Poseidon) (d : Z) (k : nat)
  (cur pre next : JsMap.t) : Prop :=
  NoDup (JsMap.keys next) /\
  (forall key x, JsMap.get key next = Some x ->
                 exists i v, In (toString i, v) pre
                             /\ 0 <= i < 2 ^ Z.of_nat (S k)
                             /\ key = toString (i / 2)
                             /\ x = parent_value H d cur i v) /\
  (forall i v, 0 <= i -> In (toString i, v) pre ->
               lookup next (i / 2) <> None).

(** The sibling [getMerkleProof] records at [level]. *)
Definition recorded (this : SparseMerkleTree) (pathBits : list bool)
  (level : nat) (cur : JsMap.t) : Z :=
  let pos := posAtLevel pathBits level in
  node cur (array_get (defaultHashes this) level)
    (if nth level pathBits false then pos - 1 else pos + 1).

(** The leaf index of an identity under the hasher [H]. *)
Definition index_of (H : Poseidon) (pubkey : list Z) : Z :=
  H (low128 pubkey) (high128 pubkey).

(** [built_by H history t]: the engine [t] results from [new
    SparseMerkleTree()] followed by the insertions of [history], oldest
    first, all run with the hasher [H] in place. *)
Inductive built_by (H : Poseidon)
  : list (list Z * Z) -> SparseMerkleTree -> Prop :=
| built_new t :
    constructor (Some H) = Ok t ->
    built_by H [] t
| built_insert history t pubkey value t' :
    built_by H history t ->
    insert pubkey (Some value) t (Some H) = Ok (tt, t') ->
    built_by H (history ++ [(pubkey, value)])%list t'.

(** The engine a method call leaves behind: the returned object, or, when
    the call throws, the object as it was (every method does its only
    mutation after the last call that can throw). *)
Definition object_after {A} (r : result (A * SparseMerkleTree))
  (this : SparseMerkleTree) : SparseMerkleTree :=
  match r with
  | Ok (_, this') => this'
  | Throw _ => this
  end.

(** Lowercase hexadecimal digits and the big-endian value of a run of
    them: the first character is the most significant. *)
Definition lower_hex_digit (c : ascii) : option Z :=
  match index 0 (String c "") "0123456789abcdef" with
  | Some n => Some (Z.of_nat n)
  | None => None
  end.

Definition is_lower_hex (c : ascii) : Prop :=
  In c (list_ascii_of_string "0123456789abcdef").

Fixpoint big_endian_hex (s : string) : option Z :=
  match s with
  | EmptyString => Some 0
  | String c s' =>
      match lower_hex_digit c, big_endian_hex s' with
      | Some d, Some r => Some (d * 16 ^ Z.of_nat (String.length s') + r)
      | _, _ => None
      end
  end.

(** A stand-in hasher for running the engine on concrete inputs: it is not
    commutative and its outputs lie below [2 ^ 254]. *)
Definition mock_hash : Poseidon :=
  fun a b => (31 * a + 17 * b + a * b + 1) mod 65521.

(** The engine obtained by running the constructor and then the
    insertions of [history], oldest first. *)
Definition engine_of (H : Poseidon) (history : list (list Z * Z))
  : result SparseMerkleTree :=
  fold_left
    (fun r '(pubkey, value) =>
       match r with
       | Ok t =>
           match insert pubkey (Some value) t (Some H) with
           | Ok (_, t') => Ok t'
           | Throw e => Throw e
           end
       | Throw e => Throw e
       end)
    history (constructor (Some H)).

Definition engine_or_empty (r : result SparseMerkleTree) : SparseMerkleTree :=
  match r with
  | Ok t => t
  | Throw _ => {| leaves := JsMap.empty; defaultHashes := [] |}
  end.

(** Sample identities: 32 zero bytes, 32 bytes 0xFF, 32 bytes 0x42, and
    two distinct identities that [mock_hash] sends to the same index. *)
Definition identity_A : list Z := repeat 0 32.
Definition identity_B : list Z := repeat 255 32.
Definition identity_C : list Z := repeat 66 32.
Definition identity_P : list Z := 17 :: repeat 0 31.
Definition identity_Q : list Z := (repeat 0 16 ++ 31 :: repeat 0 15)%list.

(** Sample engines under [mock_hash]. *)
Definition engine_fresh : SparseMerkleTree :=
  Eval vm_compute in engine_or_empty (engine_of mock_hash []).

Definition engine_A : SparseMerkleTree :=
  Eval vm_compute in engine_or_empty (engine_of mock_hash [(identity_A, 1)]).

Definition engine_AB : SparseMerkleTree :=
  Eval vm_compute in
    engine_or_empty (engine_of mock_hash [(identity_A, 1); (identity_B, 1)]).

Definition engine_BA : SparseMerkleTree :=
  Eval vm_compute in
    engine_or_empty (engine_of mock_hash [(identity_B, 1); (identity_A, 1)]).

Definition engine_Q : SparseMerkleTree :=
  Eval vm_compute in engine_or_empty (engine_of mock_hash [(identity_Q, 1)]).

(* ------------------------------------------------------------------------- *)
(** ** The program as a machine

    A client of smt.ts holds the module variable [poseidonInstance] and
    the engines it has constructed; it proceeds by calls to the exported
    functions and to the methods of its engines.  Between two calls a
    suspended [initPoseidon] may resume.  [builds] counts the calls of
    [buildPoseidon()] made so far, and [suspended] lists the calls of
    [initPoseidon] that wait at their [await], each with the hasher its
    promise will deliver.  (A call whose promise is rejected never
    resumes: it stays in the list.) *)

Record world : Type := {
  poseidonInstance : option Poseidon;
  engines : list SparseMerkleTree;
  builds : nat;
  suspended : list Poseidon
}.

Inductive call : Type :=
| Call_initPoseidon
| Call_poseidonHash2 (left right : Z)
| Call_pubkeyToIndex (pubkey : list Z)
| Call_new
| Call_insert (engine : nat) (pubkey : list Z) (value : option Z)
| Call_get (engine : nat) (pubkey : list Z)
| Call_isBlacklisted (engine : nat) (pubkey : list Z)
| Call_getRoot (engine : nat)
| Call_getMerkleProof (engine : nat) (pubkey : list Z)
| Call_getEmptyRoot (engine : nat).

Inductive value : Type :=
| V_undefined
| V_promise
| V_bigint (z : Z)
| V_boolean (b : bool)
| V_proof (p : MerkleProof)
| V_engine (engine : nat).

Fixpoint replace_engine (engine : nat) (this : SparseMerkleTree)
  (l : list SparseMerkleTree) : list SparseMerkleTree :=
  match l, engine with
  | [], _ => []
  | _ :: l', O => this :: l'
  | x :: l', S n => x :: replace_engine n this l'
  end.

(** A method call on the [engine]-th object. A call on an object that was
    never constructed cannot be written: there is no outcome ([None]). *)
Definition call_method {A} (w : world) (engine : nat) (m : method A)
  (wrap : A -> value) : option (world * result value) :=
  match nth_error (engines w) engine with
  | None => None
  | Some this =>
      Some (match m this (poseidonInstance w) with
            | Ok (a, this') =>
                ({| poseidonInstance := poseidonInstance w;
                    engines := replace_engine engine this' (engines w);
                    builds := builds w;
                    suspended := suspended w |},
                 Ok (wrap a))
            | Throw e => (w, Throw e)
            end)
  end.

(** One call.  [buildPoseidon n] is the hasher that call number [n] of
    [buildPoseidon()] delivers. *)
Definition exec (buildPoseidon : nat -> Poseidon) (w : world) (c : call)
  : option (world * result value) :=
  match c with
  | Call_initPoseidon =>
      Some (match initPoseidon (poseidonInstance w) with
            | Awaits_buildPoseidon =>
                {| poseidonInstance := poseidonInstance w;
                   engines := engines w;
                   builds := S (builds w);
                   suspended :=
                     (suspended w ++ [buildPoseidon (builds w)])%list |}
            | Completed => w
            end, Ok V_promise)
  | Call_poseidonHash2 l r =>
      Some (w, match poseidonHash2 l r (poseidonInstance w) with
               | Ok z => Ok (V_bigint z)
               | Throw e => Throw e
               end)
  | Call_pubkeyToIndex pubkey =>
      Some (w, match pubkeyToIndex pubkey (poseidonInstance w) with
               | Ok z => Ok (V_bigint z)
               | Throw e => Throw e
               end)
  | Call_new =>
      Some (match constructor (poseidonInstance w) with
            | Ok t =>
                ({| poseidonInstance := poseidonInstance w;
                    engines := (engines w ++ [t])%list;
                    builds := builds w;
                    suspended := suspended w |},
                 Ok (V_engine (List.length (engines w))))
            | Throw e => (w, Throw e)
            end)
  | Call_insert engine pubkey v =>
      call_method w engine (insert pubkey v) (fun _ => V_undefined)
  | Call_get engine pubkey =>
      call_method w engine (get pubkey) V_bigint
  | Call_isBlacklisted engine pubkey =>
      call_method w engine (isBlacklisted pubkey) V_boolean
  | Call_getRoot engine =>
      call_method w engine getRoot V_bigint
  | Call_getMerkleProof engine pubkey =>
      call_method w engine (getMerkleProof pubkey) V_proof
  | Call_getEmptyRoot engine =>
      call_method w engine getEmptyRoot V_bigint
  end.

Fixpoint remove_nth {A} (k : nat) (l : list A) : list A :=
  match l, k with
  | [], _ => []
  | _ :: l', O => l'
  | x :: l', S k' => x :: remove_nth k' l'
  end.

(** The [k]-th suspended [initPoseidon] resumes: its promise is fulfilled
    and it makes its assignment.  Promises may be fulfilled in any
    order. *)
Definition resume (w : world) (k : nat) : option world :=
  match nth_error (suspended w) k with
  | None => None
  | Some built =>
      Some {| poseidonInstance :=
                initPoseidon_resume built (poseidonInstance w);
              engines := engines w;
              builds := builds w;
              suspended := remove_nth k (suspended w) |}
  end.

Definition initial_world : world :=
  {| poseidonInstance := None; engines := []; builds := O;
     suspended := [] |}.

(** The worlds a client can be in. *)
Inductive reachable (buildPoseidon : nat -> Poseidon) : world -> Prop :=
| reachable_initial : reachable buildPoseidon initial_world
| reachable_step w c w' r :
    reachable buildPoseidon w ->
    exec buildPoseidon w c = Some (w', r) ->
    reachable buildPoseidon w'
| reachable_resume w k w' :
    reachable buildPoseidon w ->
    resume w k = Some w' ->
    reachable buildPoseidon w'.


(** The hasher of the sample runs, and a second one that differs from
    it. *)
Definition other_hash : Poseidon := fun a b => (a + 2 * b + 3) mod 65521.

Definition two_builds (n : nat) : Poseidon :=
  match n with
  | O => mock_hash
  | S _ => other_hash
  end.

(** Worlds along two overlapping calls of [initPoseidon]. *)
Definition world_one_suspended : world :=
  {| poseidonInstance := None; engines := []; builds := 1;
     suspended := [mock_hash] |}.

Definition world_two_suspended : world :=
  {| poseidonInstance := None; engines := []; builds := 2;
     suspended := [mock_hash; other_hash] |}.

Definition world_first_resumed : world :=
  {| poseidonInstance := Some mock_hash; engines := []; builds := 2;
     suspended := [other_hash] |}.

Definition world_second_resumed : world :=
  {| poseidonInstance := Some other_hash; engines := []; builds := 2;
     suspended := [] |}.

(** A world with an engine, reached through two overlapping calls of
    [initPoseidon] whose builds deliver the same hasher. *)
Definition world_with_engine : world :=
  {| poseidonInstance := Some mock_hash; engines := [engine_fresh];
     builds := 2; suspended := [] |}.

(** The value stored for [index] by the most recent insertion of
    [history] (oldest first) whose identity has that leaf index. *)
Fixpoint last_inserted (H : Poseidon) (history : list (list Z * Z))
  (index : Z) : option Z :=
  match history with
  | [] => None
  | (pubkey, value) :: rest =>
      match last_inserted H rest index with
      | Some w => Some w
      | None => if index_of H pubkey =? index then Some value else None
      end
  end.

(* ------------------------------------------------------------------------- *)
(** ** test-transfer.ts and verify.ts: byte buffers

    The parts of the clients that lay out instruction data.  A
    [Uint8Array] (and a [Buffer]) is the list of its elements, each in
    0..255; strings hold code units below 256. *)

(** What these fragments can raise. *)
Inductive script_error : Type :=
| RangeError_offset_out_of_bounds
    (* TypedArray.prototype.set, DataView.prototype.setBigUint64 *)
| TypeError_null_has_no_map
    (* reading [.map] of the [null] a failed [match] returns *).

Inductive outcome (A : Type) : Type :=
| Done (a : A)
| Raised (e : script_error).

Arguments Done {A} a.
Arguments Raised {A} e.

Definition and_then {A B} (o : outcome A) (k : A -> outcome B) : outcome B :=
  match o with
  | Done a => k a
  | Raised e => Raised e
  end.

(** Conversion of an integral number to an element of a [Uint8Array]. *)
Definition ToUint8 (n : Z) : Z := n mod 256.

(** [new Uint8Array(length)] *)
Definition Uint8Array_new (length : nat) : list Z := repeat 0 length.

(** [data[i] = v]: a store past the end is ignored. *)
Definition Uint8Array_store (i : nat) (v : Z) (data : list Z) : list Z :=
  array_set i (ToUint8 v) data.

(** [data.set(source, offset)] *)
Definition Uint8Array_set (source : list Z) (offset : nat) (data : list Z)
  : outcome (list Z) :=
  if (List.length data <? List.length source + offset)%nat
  then Raised RangeError_offset_out_of_bounds
  else Done (firstn offset data ++ map ToUint8 source
             ++ skipn (offset + List.length source) data)%list.

(** [new DataView(data.buffer).setBigUint64(byteOffset, value, true)]: the
    eight low bytes of [value], least significant first. *)
Definition setBigUint64_le (byteOffset : nat) (value : Z) (data : list Z)
  : outcome (list Z) :=
  if (List.length data <? byteOffset + 8)%nat
  then Raised RangeError_offset_out_of_bounds
  else Done (firstn byteOffset data ++ le_bytes 8 value
             ++ skipn (byteOffset + 8) data)%list.

Definition INSTRUCTION_INITIALIZE : Z := 0.
Definition INSTRUCTION_SET_SMT_ROOT : Z := 1.
Definition INSTRUCTION_TRANSFER_SOL : Z := 2.

(** The instruction data [setSmtRoot] builds. *)
Definition setSmtRoot_data (smtRoot : list Z) : outcome (list Z) :=
  let data := Uint8Array_new (1 + 32) in
  let data := Uint8Array_store 0 INSTRUCTION_SET_SMT_ROOT data in
  Uint8Array_set smtRoot 1 data.

(** The instruction data [transferSol] builds. *)
Definition transferSol_data (amount : Z) (proofData witnessData : list Z)
  : outcome (list Z) :=
  let data := Uint8Array_new (1 + 8 + 388 + 76) in
  let data := Uint8Array_store 0 INSTRUCTION_TRANSFER_SOL data in
  and_then (setBigUint64_le 1 amount data) (fun data =>
  and_then (Uint8Array_set proofData 9 data) (fun data =>
  Uint8Array_set witnessData (9 + 388) data)).

(** [s.slice(n)] for [n >= 0]. *)
Fixpoint String_slice (n : nat) (s : string) : string :=
  match n, s with
  | O, _ => s
  | S n', String _ s' => String_slice n' s'
  | S _, EmptyString => EmptyString
  end.

(** The line terminators, which [.] of a regular expression does not
    match. *)
Definition is_line_terminator (c : ascii) : bool :=
  (Ascii.eqb c "010" || Ascii.eqb c "013")%bool.

(** [s.match(/.{2}/g)]: scanning from the left, every two consecutive
    characters free of line terminators form a match; where there is none
    the scan moves on by one character.  The empty list stands for
    [null]. *)
Fixpoint match_pairs (s : string) : list string :=
  match s with
  | String a s1 =>
      match s1 with
      | String b rest =>
          if (is_line_terminator a || is_line_terminator b)%bool
          then match_pairs s1
          else String a (String b EmptyString) :: match_pairs rest
      | EmptyString => []
      end
  | EmptyString => []
  end.

(** White space that [parseInt] skips. *)
Definition is_white_space (c : ascii) : bool :=
  let n := nat_of_ascii c in
  ((9 <=? n) && (n <=? 13) || (n =? 32) || (n =? 160))%nat%bool.

Fixpoint skip_white_space (s : string) : string :=
  match s with
  | String c s' => if is_white_space c then skip_white_space s' else s
  | EmptyString => s
  end.

(** The value of a hexadecimal digit in either case. *)
Definition hex_digit_any_case (c : ascii) : option Z :=
  let n := Z.of_nat (nat_of_ascii c) in
  if (48 <=? n) && (n <=? 57) then Some (n - 48)
  else if (97 <=? n) && (n <=? 102) then Some (n - 87)
  else if (65 <=? n) && (n <=? 70) then Some (n - 55)
  else None.

(** The number spelled by the longest run of hexadecimal digits at the
    start of [s]; [acc] is [None] while no digit has been read. *)
Fixpoint hex_run (s : string) (acc : option Z) : option Z :=
  match s with
  | String c s' =>
      match hex_digit_any_case c with
      | Some d => hex_run s' (Some (16 * (acc ?? 0) + d))
      | None => acc
      end
  | EmptyString => acc
  end.

Definition strip_0x (s : string) : string :=
  match s with
  | String a (String b rest) =>
      if (Ascii.eqb a "0" && (Ascii.eqb b "x" || Ascii.eqb b "X"))%bool
      then rest else s
  | _ => s
  end.

(** [parseInt(s, 16)]; [None] is [NaN]. *)
Definition parseInt16 (s : string) : option Z :=
  let s := skip_white_space s in
  let '(sign, s) :=
    match s with
    | String c s' =>
        if Ascii.eqb c "-" then (-1, s')
        else if Ascii.eqb c "+" then (1, s')
        else (1, s)
    | EmptyString => (1, s)
    end in
  option_map (Z.mul sign) (hex_run (strip_0x s) None).

(** Conversion of a number to an element of a [Uint8Array]: [NaN] is 0. *)
Definition ToUint8_number (x : option Z) : Z :=
  match x with
  | Some n => ToUint8 n
  | None => 0
  end.

(** [new Uint8Array(smtRootHex.slice(2).match(/.{2}/g)!
      .map((byte) => parseInt(byte, 16)))] *)
Definition smtRootBuffer (smtRootHex : string) : outcome (list Z) :=
  match match_pairs (String_slice 2 smtRootHex) with
  | [] => Raised TypeError_null_has_no_map
  | chunks => Done (map (fun byte => ToUint8_number (parseInt16 byte)) chunks)
  end.

(** [proofResult.proof[0] ^= 0xff]: the element read from an empty buffer
    is [undefined], which [^] takes for 0, and the store is then ignored. *)
Definition corrupt_proof (proof : list Z) : list Z :=
  Uint8Array_store 0 (Z.lxor (nth 0 proof 0) 255) proof.

(* ========================================================================= *)
(** * Properties *)

(* ------------------------------------------------------------------------- *)
(** ** Loops *)

Lemma for_range_inv {St} (Inv : nat -> St -> Prop) inst body :
  forall count start (s : St),
    Inv start s ->
    (forall i s, (start <= i < start + count)%nat -> Inv i s ->
                 exists s', body i s inst = Ok s' /\ Inv (S i) s') ->
    exists s', for_range start count body s inst = Ok s'
               /\ Inv (start + count)%nat s'.
Proof.
  induction count as [|count IH]; intros start s H0 Hstep; simpl.
  - exists s. rewrite Nat.add_0_r. split; [reflexivity | assumption].
  - unfold bind.
    destruct (Hstep start s ltac:(lia) H0) as (s1 & -> & H1).
    destruct (IH (S start) s1 H1) as (s2 & E & H2).
    + intros i s' Hi. apply Hstep. lia.
    + exists s2. split; [exact E|].
      replace (start + S count)%nat with (S start + count)%nat by lia.
      exact H2.
Qed.

Lemma for_of_inv {A St} (Inv : list A -> St -> Prop) inst
  (body : A -> St -> M St) :
  forall (todo done : list A) (s : St),
    Inv done s ->
    (forall pre x post s, (done ++ todo = pre ++ x :: post)%list ->
                          Inv pre s ->
                          exists s', body x s inst = Ok s'
                                     /\ Inv (pre ++ [x])%list s') ->
    exists s', for_of todo body s inst = Ok s'
               /\ Inv (done ++ todo)%list s'.
Proof.
  induction todo as [|x todo IH]; intros done s H0 Hstep; simpl.
  - exists s. rewrite app_nil_r. split; [reflexivity | assumption].
  - unfold bind.
    destruct (Hstep done x todo s eq_refl H0) as (s1 & -> & H1).
    destruct (IH (done ++ [x])%list s1 H1) as (s2 & E & H2).
    + intros pre y post s' Heq. apply (Hstep pre y post).
      rewrite <- Heq, <- app_assoc. reflexivity.
    + exists s2. split; [exact E|].
      rewrite <- app_assoc in H2. exact H2.
Qed.

Lemma for_pure_inv {St} (Inv : nat -> St -> Prop) body :
  forall count start (s : St),
    Inv start s ->
    (forall i s, (start <= i < start + count)%nat -> Inv i s ->
                 Inv (S i) (body i s)) ->
    Inv (start + count)%nat (for_pure start count body s).
Proof.
  induction count as [|count IH]; intros start s H0 Hstep; simpl.
  - rewrite Nat.add_0_r. assumption.
  - replace (start + S count)%nat with (S start + count)%nat by lia.
    apply IH.
    + apply Hstep; [lia | assumption].
    + intros i s' Hi. apply Hstep. lia.
Qed.

(* ------------------------------------------------------------------------- *)
(** ** Printing and parsing *)

Lemma string_app_assoc (s1 s2 s3 : string) :
  (s1 ++ s2) ++ s3 = s1 ++ (s2 ++ s3).
Proof.
  induction s1 as [|c s1 IH]; simpl; [reflexivity | now rewrite IH].
Qed.

Lemma string_length_app (s1 s2 : string) :
  String.length (s1 ++ s2) = (String.length s1 + String.length s2)%nat.
Proof.
  induction s1 as [|c s1 IH]; simpl; [reflexivity | now rewrite IH].
Qed.

Section Digits.

Variable radix : Z.
Hypothesis radix_range : 2 <= radix <= 36.

Lemma digit_value_char d :
  0 <= d < radix -> digit_value radix (digit_char d) = Some d.
Proof.
  intros Hd.
  assert (Hn : exists n, d = Z.of_nat n /\ (n < 36)%nat).
  { exists (Z.to_nat d). lia. }
  destruct Hn as (n & -> & Hn).
  unfold digit_value, digit_char. rewrite Nat2Z.id.
  do 36 (destruct n as [|n];
         [ cbv -[Z.ltb];
           match goal with
           | |- (if ?k <? _ then _ else _) = _ =>
               destruct (Z.ltb_spec k radix); [reflexivity | simpl in Hd; lia]
           end | ]).
  lia.
Qed.

Lemma digits_fuel_app fuel : forall n acc,
  digits_fuel fuel radix n acc = digits_fuel fuel radix n "" ++ acc.
Proof.
  induction fuel as [|fuel IH]; intros n acc; simpl; [reflexivity|].
  destruct (n / radix =? 0); [reflexivity|].
  rewrite IH. rewrite (IH _ (String _ "")).
  rewrite string_app_assoc. reflexivity.
Qed.

Lemma parse_digits_app s1 : forall s2 acc,
  parse_digits radix (s1 ++ s2) acc =
  match parse_digits radix s1 acc with
  | Some x => parse_digits radix s2 x
  | None => None
  end.
Proof.
  induction s1 as [|c s1 IH]; intros s2 acc; simpl; [reflexivity|].
  destruct (digit_value radix c); [apply IH | reflexivity].
Qed.

Lemma div_radix_lt n k :
  0 <= n < 2 ^ Z.of_nat (S k) -> 0 <= n / radix < 2 ^ Z.of_nat k.
Proof.
  intros Hn. rewrite Nat2Z.inj_succ, Z.pow_succ_r in Hn by lia.
  split; [apply Z.div_pos; lia|].
  apply Z.div_lt_upper_bound; [lia|].
  assert (0 < 2 ^ Z.of_nat k) by (apply Z.pow_pos_nonneg; lia). nia.
Qed.

(** Enough fuel: the digits parse back to the number. *)
Lemma parse_digits_fuel fuel : forall n,
  0 <= n < 2 ^ Z.of_nat fuel ->
  parse_digits radix (digits_fuel fuel radix n "") 0 = Some n.
Proof.
  induction fuel as [|fuel IH]; intros n Hn.
  - simpl in *. f_equal. lia.
  - cbn [digits_fuel].
    assert (Hd : 0 <= n mod radix < radix) by (apply Z.mod_pos_bound; lia).
    destruct (Z.eqb_spec (n / radix) 0) as [E|E].
    + cbn [parse_digits]. rewrite digit_value_char by assumption.
      f_equal. pose proof (Z.div_mod n radix ltac:(lia)). nia.
    + rewrite digits_fuel_app, parse_digits_app.
      rewrite IH by (apply div_radix_lt; assumption).
      cbn [parse_digits]. rewrite digit_value_char by assumption.
      f_equal. pose proof (Z.div_mod n radix ltac:(lia)). lia.
Qed.

Lemma digits_fuel_nonempty fuel n :
  digits_fuel (S fuel) radix n "" <> "".
Proof.
  cbn [digits_fuel]. destruct (n / radix =? 0); [discriminate|].
  rewrite digits_fuel_app.
  destruct (digits_fuel fuel radix (n / radix) ""); discriminate.
Qed.

Lemma log2_fuel n :
  0 <= n -> 0 <= n < 2 ^ Z.of_nat (S (Z.to_nat (Z.log2 n))).
Proof.
  intros Hn. split; [assumption|].
  rewrite Nat2Z.inj_succ, Z2Nat.id by apply Z.log2_nonneg.
  destruct (Z.eq_dec n 0) as [->|]; [reflexivity|].
  apply Z.log2_spec. lia.
Qed.

Lemma parse_digits_digits n :
  0 <= n -> parse_digits radix (digits radix n) 0 = Some n.
Proof.
  intros Hn. apply parse_digits_fuel, log2_fuel, Hn.
Qed.

(** A number below [radix ^ k] prints with at most [k] digits. *)
Lemma digits_fuel_length fuel : forall n k,
  (1 <= k)%nat -> 0 <= n < radix ^ Z.of_nat k ->
  (String.length (digits_fuel fuel radix n "") <= k)%nat.
Proof.
  induction fuel as [|fuel IH]; intros n k Hk Hn; simpl; [lia|].
  destruct (Z.eqb_spec (n / radix) 0) as [E|E]; [simpl; lia|].
  rewrite digits_fuel_app, string_length_app. simpl.
  destruct k as [|[|k]]; [lia| |].
  - exfalso. apply E. apply Z.div_small. simpl in Hn. lia.
  - specialize (IH (n / radix) (S k) ltac:(lia)).
    assert (0 <= n / radix < radix ^ Z.of_nat (S k)); [|lia].
    split; [apply Z.div_pos; lia|].
    apply Z.div_lt_upper_bound; [lia|].
    rewrite (Nat2Z.inj_succ (S k)), Z.pow_succ_r in Hn by lia. lia.
Qed.

(** Every printed character is one of the first [radix] digits. *)
Lemma digits_fuel_chars fuel : forall n acc,
  0 <= n ->
  Forall (fun c => exists d, 0 <= d < radix /\ c = digit_char d)
         (list_ascii_of_string acc) ->
  Forall (fun c => exists d, 0 <= d < radix /\ c = digit_char d)
         (list_ascii_of_string (digits_fuel fuel radix n acc)).
Proof.
  induction fuel as [|fuel IH]; intros n acc Hn Hacc; simpl; [assumption|].
  assert (Hd : 0 <= n mod radix < radix) by (apply Z.mod_pos_bound; lia).
  assert (Hacc' : Forall (fun c => exists d, 0 <= d < radix /\ c = digit_char d)
                    (list_ascii_of_string
                       (String (digit_char (n mod radix)) acc))).
  { simpl. constructor; [eauto | assumption]. }
  destruct (n / radix =? 0); [assumption|].
  apply IH; [apply Z.div_pos; lia | assumption].
Qed.

End Digits.

Lemma toString_nonneg n : 0 <= n -> toString n = digits 10 n.
Proof.
  intros Hn. unfold toString, toString_radix.
  destruct (Z.ltb_spec n 0); [lia | reflexivity].
Qed.

(** [BigInt(n.toString())] is [n] again. *)
Lemma BigInt_toString n :
  0 <= n -> BigInt_of_string (toString n) = Ok n.
Proof.
  intros Hn. rewrite toString_nonneg by assumption.
  pose proof (parse_digits_digits 10 ltac:(lia) n Hn) as P.
  pose proof (digits_fuel_nonempty 10 (Z.to_nat (Z.log2 n)) n) as NE.
  fold (digits 10 n) in NE.
  destruct (digits 10 n) as [|c s] eqn:E; [congruence|].
  unfold BigInt_of_string.
  destruct (Ascii.eqb_spec c "-"%char) as [->|_].
  - simpl in P. discriminate.
  - unfold parse_nonempty. rewrite P. reflexivity.
Qed.

Lemma toString_inj a b :
  0 <= a -> 0 <= b -> toString a = toString b -> a = b.
Proof.
  intros Ha Hb E.
  pose proof (BigInt_toString a Ha) as Pa.
  pose proof (BigInt_toString b Hb) as Pb.
  rewrite E in Pa. congruence.
Qed.

(* ------------------------------------------------------------------------- *)
(** ** Maps and sets *)

Lemma jsmap_get_set_same k v m : JsMap.get k (JsMap.set k v m) = Some v.
Proof.
  induction m as [|[k' v'] m IH]; simpl.
  - now rewrite String.eqb_refl.
  - destruct (String.eqb_spec k k') as [->|N]; simpl.
    + now rewrite String.eqb_refl.
    + destruct (String.eqb_spec k k'); [contradiction | exact IH].
Qed.

Lemma jsmap_get_set_other k k' v m :
  k <> k' -> JsMap.get k' (JsMap.set k v m) = JsMap.get k' m.
Proof.
  intros N. induction m as [|[k0 v0] m IH]; simpl.
  - destruct (String.eqb_spec k' k); [congruence | reflexivity].
  - destruct (String.eqb_spec k k0) as [->|N0]; simpl.
    + destruct (String.eqb_spec k' k0); [congruence | reflexivity].
    + destruct (String.eqb_spec k' k0); [reflexivity | exact IH].
Qed.

Lemma jsmap_keys_set k v m k' :
  In k' (JsMap.keys (JsMap.set k v m)) <-> k' = k \/ In k' (JsMap.keys m).
Proof.
  induction m as [|[k0 v0] m IH]; simpl.
  - intuition.
  - destruct (String.eqb_spec k k0) as [->|N0]; simpl.
    + intuition.
    + unfold JsMap.keys in IH. rewrite IH. intuition.
Qed.

Lemma jsmap_set_NoDup k v m :
  NoDup (JsMap.keys m) -> NoDup (JsMap.keys (JsMap.set k v m)).
Proof.
  induction m as [|[k0 v0] m IH]; simpl; intros ND.
  - constructor; [intros [] | constructor].
  - inversion ND as [|? ? Hnin ND']; subst.
    destruct (String.eqb_spec k k0) as [->|N0]; simpl.
    + constructor; assumption.
    + constructor; [|apply IH; assumption].
      intros Hin. apply (jsmap_keys_set k v m k0) in Hin.
      destruct Hin; [congruence | contradiction].
Qed.

Lemma jsmap_get_In k v m : JsMap.get k m = Some v -> In (k, v) m.
Proof.
  induction m as [|[k0 v0] m IH]; simpl; [discriminate|].
  destruct (String.eqb_spec k k0) as [->|N0].
  - intros [= ->]. now left.
  - intros H. right. now apply IH.
Qed.

Lemma jsmap_get_None k m : JsMap.get k m = None <-> ~ In k (JsMap.keys m).
Proof.
  induction m as [|[k0 v0] m IH]; simpl.
  - intuition.
  - destruct (String.eqb_spec k k0) as [->|N0].
    + split; [discriminate | intros H; exfalso; apply H; now left].
    + rewrite IH. unfold JsMap.keys. intuition congruence.
Qed.

Lemma jsmap_In_get k v m :
  NoDup (JsMap.keys m) -> In (k, v) m -> JsMap.get k m = Some v.
Proof.
  induction m as [|[k0 v0] m IH]; simpl; intros ND Hin; [contradiction|].
  inversion ND as [|? ? Hnin ND']; subst.
  destruct Hin as [[= -> ->]|Hin].
  - now rewrite String.eqb_refl.
  - destruct (String.eqb_spec k k0) as [->|N0]; [|now apply IH].
    exfalso. apply Hnin. change k0 with (fst (k0, v)). now apply in_map.
Qed.

Lemma jsmap_In_keys k v (m : JsMap.t) : In (k, v) m -> In k (JsMap.keys m).
Proof.
  intros H. change k with (fst (k, v)). now apply in_map.
Qed.

Lemma jsmap_set_absent k v m :
  ~ In k (JsMap.keys m) -> JsMap.set k v m = (m ++ [(k, v)])%list.
Proof.
  induction m as [|[k0 v0] m IH]; simpl; intros Hnin; [reflexivity|].
  destruct (String.eqb_spec k k0) as [->|N0].
  - exfalso. apply Hnin. now left.
  - f_equal. apply IH. intros H. apply Hnin. now right.
Qed.

(** Copying a map entry by entry into an empty map gives the same map. *)
Lemma jsmap_copy m : forall acc,
  NoDup (JsMap.keys (acc ++ m)%list) ->
  fold_left (fun cl '(k, v) => JsMap.set k v cl) m acc = (acc ++ m)%list.
Proof.
  induction m as [|[k v] m IH]; intros acc ND; simpl.
  - now rewrite app_nil_r.
  - rewrite jsmap_set_absent.
    + rewrite IH; rewrite <- app_assoc; [reflexivity | exact ND].
    + unfold JsMap.keys in *. rewrite map_app in ND. simpl in ND.
      apply NoDup_remove_2 in ND. intros H. apply ND.
      apply in_or_app. now left.
Qed.

Lemma jsset_has_add k k' s :
  JsSet.has k' (JsSet.add k s) = (String.eqb k' k || JsSet.has k' s)%bool.
Proof.
  unfold JsSet.add. destruct (JsSet.has k s) eqn:E.
  - destruct (String.eqb_spec k' k) as [->|]; [now rewrite E | reflexivity].
  - clear E. induction s as [|k0 s IH]; simpl.
    + now destruct (k' =? k)%string.
    + destruct (k' =? k0)%string; [now rewrite orb_true_r | exact IH].
Qed.

(* ------------------------------------------------------------------------- *)
(** ** Positions, parents and children *)

Lemma land_1_odd i : (Z.land i 1 =? 1) = Z.odd i.
Proof.
  change 1 with (Z.ones 1) at 1. rewrite Z.land_ones by lia.
  change (2 ^ 1) with 2. rewrite Zmod_odd. now destruct (Z.odd i).
Qed.

Lemma shiftr_1_div i : Z.shiftr i 1 = i / 2.
Proof. rewrite Z.shiftr_div_pow2 by lia. reflexivity. Qed.

Lemma odd_child i : Z.odd i = true -> i = 2 * (i / 2) + 1.
Proof.
  intros Ho. pose proof (Zmod_odd i) as Hm. rewrite Ho in Hm.
  pose proof (Z.div_mod i 2 ltac:(lia)). lia.
Qed.

Lemma even_child i : Z.odd i = false -> i = 2 * (i / 2).
Proof.
  intros Ho. pose proof (Zmod_odd i) as Hm. rewrite Ho in Hm.
  pose proof (Z.div_mod i 2 ltac:(lia)). lia.
Qed.

Lemma half_range i k :
  0 <= i < 2 ^ Z.of_nat (S k) -> 0 <= i / 2 < 2 ^ Z.of_nat k.
Proof.
  intros Hi. rewrite Nat2Z.inj_succ, Z.pow_succ_r in Hi by lia.
  split; [apply Z.div_pos; lia | apply Z.div_lt_upper_bound; lia].
Qed.

Lemma wf_level_lookup k m key v :
  wf_level k m -> In (key, v) m ->
  exists i, key = toString i /\ 0 <= i < 2 ^ Z.of_nat k
            /\ lookup m i = Some v.
Proof.
  intros [ND Hk] Hin.
  destruct (Hk key (jsmap_In_keys _ _ _ Hin)) as (i & -> & Hi).
  exists i. repeat split; try lia.
  unfold lookup. now apply jsmap_In_get.
Qed.

Lemma lookup_In m i v : lookup m i = Some v -> In (toString i, v) m.
Proof. apply jsmap_get_In. Qed.

Section Levels.

Variable H : Poseidon.

Lemma visited_set d k cur pre next i v :
  visited H d k cur pre next ->
  0 <= i < 2 ^ Z.of_nat (S k) ->
  visited H d k cur (pre ++ [(toString i, v)])%list
    (JsMap.set (toString (i / 2)) (parent_value H d cur i v) next).
Proof.
  intros (ND & Hval & Hcov) Hi. split; [|split].
  - now apply jsmap_set_NoDup.
  - intros key x Hget.
    destruct (string_dec (toString (i / 2)) key) as [<-|N].
    + rewrite jsmap_get_set_same in Hget. injection Hget as <-.
      exists i, v. repeat split; try lia.
      apply in_or_app. right. now left.
    + rewrite jsmap_get_set_other in Hget by assumption.
      destruct (Hval key x Hget) as (i' & v' & Hin & Hr & Hk & Hx).
      exists i', v'. repeat split; try lia; try assumption.
      apply in_or_app. now left.
  - intros i' v' Hi' Hin. unfold lookup.
    destruct (string_dec (toString (i / 2)) (toString (i' / 2))) as [E|N].
    + rewrite <- E, jsmap_get_set_same. discriminate.
    + rewrite jsmap_get_set_other by assumption.
      apply in_app_or in Hin. destruct Hin as [Hin|[Hin|[]]].
      * exact (Hcov i' v' Hi' Hin).
      * injection Hin as E' _.
        apply toString_inj in E'; [|lia|lia]. subst i'. contradiction.
Qed.

Lemma visited_skip d k cur pre next i v :
  visited H d k cur pre next ->
  0 <= i ->
  lookup next (i / 2) <> None ->
  visited H d k cur (pre ++ [(toString i, v)])%list next.
Proof.
  intros (ND & Hval & Hcov) Hi Hpresent. split; [|split].
  - assumption.
  - intros key x Hget.
    destruct (Hval key x Hget) as (i' & v' & Hin & Hr & Hk & Hx).
    exists i', v'. repeat split; try lia; try assumption.
    apply in_or_app. now left.
  - intros i' v' Hi' Hin.
    apply in_app_or in Hin. destruct Hin as [Hin|[Hin|[]]].
    + exact (Hcov i' v' Hi' Hin).
    + injection Hin as E' _.
      apply toString_inj in E'; [|lia|lia]. now subst i'.
Qed.

(** Once every entry has been visited the next level is the level of the
    parents. *)
Lemma visited_all d k cur next :
  wf_level (S k) cur ->
  visited H d k cur cur next ->
  level_step H d k cur next.
Proof.
  intros Hwf (ND & Hval & Hcov). split; [|split].
  - split; [assumption|].
    intros key Hin.
    destruct (JsMap.get key next) as [x|] eqn:G.
    + destruct (Hval key x G) as (i & v & _ & Hr & -> & _).
      exists (i / 2). split; [reflexivity | now apply half_range].
    + apply jsmap_get_None in G. contradiction.
  - intros q x Hq G.
    destruct (Hval _ x G) as (i & v & Hin & Hr & Hk & ->).
    apply toString_inj in Hk; [|lia|apply Z.div_pos; lia]. subst q.
    destruct (wf_level_lookup _ _ _ _ Hwf Hin) as (i' & E & Hr' & L).
    apply toString_inj in E; [|lia|lia]. subst i'.
    unfold parent_value.
    destruct (Z.odd i) eqn:Ho.
    + pose proof (odd_child i Ho) as Hc.
      replace (2 * (i / 2)) with (i - 1) by lia.
      replace (i - 1 + 1) with i by lia.
      unfold node at 3. now rewrite L.
    + pose proof (even_child i Ho) as Hc.
      replace (2 * (i / 2)) with i by lia.
      unfold node at 2. now rewrite L.
  - intros q Hq G.
    split.
    + destruct (lookup cur (2 * q)) as [v|] eqn:L; [|reflexivity].
      exfalso. apply (Hcov (2 * q) v ltac:(lia) (lookup_In _ _ _ L)).
      replace (2 * q / 2) with q; [assumption|].
      symmetry. rewrite Z.mul_comm. apply Z.div_mul. lia.
    + destruct (lookup cur (2 * q + 1)) as [v|] eqn:L; [|reflexivity].
      exfalso. apply (Hcov (2 * q + 1) v ltac:(lia) (lookup_In _ _ _ L)).
      replace ((2 * q + 1) / 2) with q; [assumption|].
      symmetry. rewrite Z.mul_comm, Z.div_add_l by lia.
      change (1 / 2) with 0. lia.
Qed.

Lemma visited_nil d k cur : visited H d k cur [] JsMap.empty.
Proof.
  split; [constructor | split].
  - intros key x G. discriminate.
  - intros i v _ [].
Qed.

Lemma entry_of_level (cur pre post : JsMap.t) x k :
  wf_level (S k) cur ->
  ([] ++ cur = pre ++ x :: post)%list ->
  exists i, x = (toString i, snd x) /\ 0 <= i < 2 ^ Z.of_nat (S k).
Proof.
  intros Hwf Heq. simpl in Heq.
  assert (Hin : In x cur) by (rewrite Heq; apply in_elt).
  destruct x as [key v].
  destruct (wf_level_lookup _ _ _ _ Hwf Hin) as (i & -> & Hi & _).
  exists i. split; [reflexivity | assumption].
Qed.

(** The inner loop of [getRoot] computes the level of the parents. *)
Lemma rootLevel_pass this level cur k :
  wf_level (S k) cur ->
  exists next,
    for_of (JsMap.entries cur) (rootLevelEntry this level cur)
      JsMap.empty (Some H) = Ok next
    /\ level_step H (array_get (defaultHashes this) level) k cur next.
Proof.
  intros Hwf.
  set (d := array_get (defaultHashes this) level).
  destruct (for_of_inv (visited H d k cur) (Some H)
              (rootLevelEntry this level cur) cur [] JsMap.empty)
    as (next & E & V).
  - apply visited_nil.
  - intros pre x post nl Heq V.
    destruct (entry_of_level _ _ _ _ _ Hwf Heq) as (i & Ex & Hi).
    destruct x as [key v]. simpl in Ex. injection Ex as ->.
    eexists. split.
    2:{ apply (visited_set d k cur pre nl i v V Hi). }
    unfold rootLevelEntry, bind, lift.
    rewrite BigInt_toString by lia.
    rewrite shiftr_1_div, land_1_odd.
    unfold parent_value. fold d.
    destruct (Z.odd i); reflexivity.
  - exists next. split; [exact E|].
    apply visited_all; assumption.
Qed.

(** So does the inner loop of [getMerkleProof], which skips a parent it
    has already produced. *)
Lemma proofLevel_pass this level cur k :
  wf_level (S k) cur ->
  exists next processed,
    for_of (JsMap.entries cur) (proofLevelEntry this level cur)
      (JsMap.empty, JsSet.empty) (Some H) = Ok (next, processed)
    /\ level_step H (array_get (defaultHashes this) level) k cur next.
Proof.
  intros Hwf.
  set (d := array_get (defaultHashes this) level).
  destruct (for_of_inv
              (fun pre (st : JsMap.t * JsSet.t) =>
                 visited H d k cur pre (fst st) /\
                 forall key, JsSet.has key (snd st) = true <->
                             JsMap.get key (fst st) <> None)
              (Some H) (proofLevelEntry this level cur) cur []
              (JsMap.empty, JsSet.empty))
    as ([next processed] & E & V & _).
  - split; [apply visited_nil|]. intros key. simpl. intuition congruence.
  - intros pre x post [nl pp] Heq [V Hpp]. simpl in V, Hpp.
    destruct (entry_of_level _ _ _ _ _ Hwf Heq) as (i & Ex & Hi).
    destruct x as [key v]. simpl in Ex. injection Ex as ->.
    unfold proofLevelEntry, bind, lift.
    rewrite BigInt_toString by lia.
    rewrite shiftr_1_div, land_1_odd.
    destruct (JsSet.has (toString (i / 2)) pp) eqn:Hhas.
    + exists (nl, pp). split; [reflexivity|]. split; [|exact Hpp].
      simpl. apply visited_skip; [assumption | lia |].
      apply Hpp. exact Hhas.
    + exists (JsMap.set (toString (i / 2)) (parent_value H d cur i v) nl,
              JsSet.add (toString (i / 2)) pp).
      split.
      * unfold parent_value. fold d. destruct (Z.odd i); reflexivity.
      * split; [apply visited_set; assumption|].
        intros key. simpl. rewrite jsset_has_add.
        destruct (String.eqb_spec key (toString (i / 2))) as [->|N].
        -- rewrite jsmap_get_set_same. simpl. intuition congruence.
        -- rewrite jsmap_get_set_other by congruence. simpl. apply Hpp.
  - exists next, processed. split; [exact E|].
    apply visited_all; assumption.
Qed.


(** The level loop of [getRoot] runs to its end, and keeps any property
    that one [level_step] keeps. *)
Lemma rootLevels_run this (P : nat -> JsMap.t -> Prop) :
  wf_level TREE_DEPTH (copyLeaves this) ->
  P O (copyLeaves this) ->
  (forall l cur next,
      (l < TREE_DEPTH)%nat ->
      wf_level (TREE_DEPTH - l) cur -> P l cur ->
      level_step H (array_get (defaultHashes this) l)
        (TREE_DEPTH - S l) cur next ->
      P (S l) next) ->
  exists final,
    rootLevels this (Some H) = Ok final
    /\ wf_level 0 final /\ P TREE_DEPTH final.
Proof.
  intros Hwf HP Hstep.
  destruct (for_range_inv
              (fun l cur => (l <= TREE_DEPTH)%nat
                            /\ wf_level (TREE_DEPTH - l) cur /\ P l cur)
              (Some H)
              (fun level currentLevel =>
                 for_of (JsMap.entries currentLevel)
                   (rootLevelEntry this level currentLevel) JsMap.empty)
              TREE_DEPTH O (copyLeaves this))
    as (final & E & _ & Hwf' & HP').
  - rewrite Nat.sub_0_r. split; [lia | split; assumption].
  - intros l cur Hl (_ & Hw & Hp).
    assert (Hlt : (l < TREE_DEPTH)%nat) by lia.
    assert (Hk : (TREE_DEPTH - l = S (TREE_DEPTH - S l))%nat) by lia.
    pose proof Hw as Hw'. rewrite Hk in Hw'.
    destruct (rootLevel_pass this l cur _ Hw') as (next & E & Hs).
    exists next. split; [exact E|]. split; [lia|]. split.
    + apply Hs.
    + exact (Hstep l cur next Hlt Hw Hp Hs).
  - exists final. split; [exact E|].
    rewrite Nat.add_0_l, Nat.sub_diag in Hwf'. rewrite Nat.add_0_l in HP'.
    split; assumption.
Qed.

Lemma proofLevels_run this pathBits
  (P : nat -> list Z -> JsMap.t -> Prop) :
  wf_level TREE_DEPTH (copyLeaves this) ->
  P O [] (copyLeaves this) ->
  (forall l sibs cur next,
      (l < TREE_DEPTH)%nat ->
      wf_level (TREE_DEPTH - l) cur -> P l sibs cur ->
      level_step H (array_get (defaultHashes this) l)
        (TREE_DEPTH - S l) cur next ->
      P (S l) (sibs ++ [recorded this pathBits l cur])%list next) ->
  exists sibs final,
    for_range 0 TREE_DEPTH (proofLevel this pathBits)
      ([], copyLeaves this) (Some H) = Ok (sibs, final)
    /\ P TREE_DEPTH sibs final.
Proof.
  intros Hwf HP Hstep.
  destruct (for_range_inv
              (fun l (st : list Z * JsMap.t) =>
                 (l <= TREE_DEPTH)%nat
                 /\ wf_level (TREE_DEPTH - l) (snd st)
                 /\ P l (fst st) (snd st))
              (Some H) (proofLevel this pathBits)
              TREE_DEPTH O ([], copyLeaves this))
    as ([sibs final] & E & _ & _ & HP').
  - rewrite Nat.sub_0_r. split; [lia | split; assumption].
  - intros l [sibs cur] Hl (_ & Hw & Hp). cbn [fst snd] in Hw, Hp.
    assert (Hlt : (l < TREE_DEPTH)%nat) by lia.
    assert (Hk : (TREE_DEPTH - l = S (TREE_DEPTH - S l))%nat) by lia.
    pose proof Hw as Hw'. rewrite Hk in Hw'.
    destruct (proofLevel_pass this l cur _ Hw')
      as (next & processed & E & Hs).
    exists ((sibs ++ [recorded this pathBits l cur])%list, next).
    split.
    + unfold proofLevel, bind. rewrite E. reflexivity.
    + split; [lia|]. split; [apply Hs|].
      exact (Hstep l sibs cur next Hlt Hw Hp Hs).
  - exists sibs, final. split; [exact E|].
    rewrite Nat.add_0_l in HP'. exact HP'.
Qed.

(** A level map that agrees with the Merkle tree over the leaves [f0]
    still does after one pass, provided the default of the next level is
    the hash of two defaults of this one. *)
Lemma level_step_subtree f0 d d' k l cur next :
  d' = H d d ->
  level_step H d k cur next ->
  (forall q, 0 <= q < 2 ^ Z.of_nat (S k) ->
             node cur d q = subtree H f0 l q) ->
  forall q, 0 <= q < 2 ^ Z.of_nat k ->
            node next d' q = subtree H f0 (S l) q.
Proof.
  intros Hd (_ & Hsome & Hnone) Hcur q Hq.
  assert (Hr : 2 ^ Z.of_nat (S k) = 2 * 2 ^ Z.of_nat k).
  { rewrite Nat2Z.inj_succ, Z.pow_succ_r by lia. reflexivity. }
  cbn [subtree].
  rewrite <- !Hcur by lia.
  unfold node at 1.
  destruct (lookup next q) as [x|] eqn:L; cbn [nullish].
  - apply Hsome; [lia | assumption].
  - destruct (Hnone q ltac:(lia) L) as [L0 L1].
    unfold node. rewrite L0, L1. exact Hd.
Qed.

End Levels.

(* ------------------------------------------------------------------------- *)
(** ** Arrays, byte strings and path bits *)

Lemma array_set_length i v a :
  List.length (array_set i v a) = List.length a.
Proof.
  revert i. induction a as [|x a IH]; intros [|i]; simpl; auto.
Qed.

Lemma array_get_set_same i v a :
  (i < List.length a)%nat -> array_get (array_set i v a) i = v.
Proof.
  unfold array_get. revert i.
  induction a as [|x a IH]; intros [|i]; simpl; intros Hl; try lia.
  apply IH. lia.
Qed.

Lemma array_get_set_other i j v a :
  i <> j -> array_get (array_set i v a) j = array_get a j.
Proof.
  unfold array_get. revert i j.
  induction a as [|x a IH]; intros [|i] [|j] N; simpl;
    try reflexivity; try contradiction.
  apply IH. congruence.
Qed.

Lemma for_range_throw {St} inst (body : nat -> St -> M St) e :
  forall j start count (s : St),
    (j < count)%nat ->
    (forall i s, (start <= i < start + j)%nat ->
                 exists s', body i s inst = Ok s') ->
    (forall s, body (start + j)%nat s inst = Throw e) ->
    for_range start count body s inst = Throw e.
Proof.
  induction j as [|j IH]; intros start count s Hj Hok Hthrow.
  - destruct count as [|count]; [lia|]. simpl. unfold bind.
    rewrite Nat.add_0_r in Hthrow. now rewrite Hthrow.
  - destruct count as [|count]; [lia|]. simpl. unfold bind.
    destruct (Hok start s ltac:(lia)) as (s1 & ->).
    apply IH; [lia | |].
    + intros i s' Hi. apply Hok. lia.
    + intros s'. replace (S start + j)%nat with (start + S j)%nat by lia.
      apply Hthrow.
Qed.

Lemma le_value_firstn_S l : forall i b,
  nth_error l i = Some b ->
  le_value (firstn (S i) l) = le_value (firstn i l) + b * 256 ^ Z.of_nat i.
Proof.
  induction l as [|x l IH]; intros [|i] b Hn; simpl in Hn; try discriminate.
  - injection Hn as ->. cbn [firstn le_value]. lia.
  - rewrite firstn_cons. cbn [le_value]. rewrite (IH i b Hn).
    rewrite firstn_cons. cbn [le_value].
    rewrite Nat2Z.inj_succ, Z.pow_succ_r by lia. ring.
Qed.

Lemma bytes16ToField_ok bytes start inst :
  (start + 16 <= List.length bytes)%nat ->
  bytes16ToField bytes start inst
  = Ok (le_value (firstn 16 (skipn start bytes))).
Proof.
  intros Hlen. unfold bytes16ToField, bind.
  match goal with
  | |- context [for_range 0 16 ?body ?s0 inst] =>
      destruct (for_range_inv
                  (fun i (st : Z * Z) =>
                     snd st = 256 ^ Z.of_nat i /\
                     fst st = le_value (firstn i (skipn start bytes)))
                  inst body 16%nat O s0)
        as ([res mult] & E & _ & Hres)
  end.
  - split; reflexivity.
  - intros i [res mult] Hi [Hm Hr]. cbn [fst snd] in Hm, Hr.
    destruct (nth_error bytes (start + i)) as [b|] eqn:Hb.
    2:{ apply nth_error_None in Hb. lia. }
    exists (res + b * mult, mult * 256). split.
    + unfold bind. reflexivity.
    + cbn [fst snd]. split.
      * rewrite Hm, Nat2Z.inj_succ, Z.pow_succ_r by lia. ring.
      * rewrite (le_value_firstn_S _ i b).
        -- now rewrite Hr, Hm.
        -- now rewrite nth_error_skipn.
  - rewrite E. cbn [fst] in Hres. unfold ret. now rewrite Hres.
Qed.

Lemma bytes16ToField_short bytes start inst :
  (List.length bytes < start + 16)%nat ->
  bytes16ToField bytes start inst = Throw TypeError_undefined_to_BigInt.
Proof.
  intros Hlen. unfold bytes16ToField, bind.
  rewrite (for_range_throw inst _ TypeError_undefined_to_BigInt
             (List.length bytes - start)%nat); [reflexivity | lia | |].
  - intros i [res mult] Hi.
    destruct (nth_error bytes (start + i)) as [b|] eqn:Hb.
    + eexists. unfold bind. reflexivity.
    + apply nth_error_None in Hb. lia.
  - intros [res mult]. unfold bind.
    destruct (nth_error bytes (start + (0 + (List.length bytes - start))))
      as [b|] eqn:Hb; [|reflexivity].
    assert (nth_error bytes (start + (0 + (List.length bytes - start)))
            <> None) as Hb' by congruence.
    apply nth_error_Some in Hb'. lia.
Qed.

Lemma pubkeyToIndex_ok pubkey (H : Poseidon) :
  (32 <= List.length pubkey)%nat ->
  pubkeyToIndex pubkey (Some H) = Ok (H (low128 pubkey) (high128 pubkey)).
Proof.
  intros Hlen. unfold pubkeyToIndex, bind.
  rewrite !bytes16ToField_ok by lia. reflexivity.
Qed.

Lemma pubkeyToIndex_uninitialized pubkey :
  (32 <= List.length pubkey)%nat ->
  pubkeyToIndex pubkey None = Throw PoseidonNotInitialized.
Proof.
  intros Hlen. unfold pubkeyToIndex, bind.
  rewrite !bytes16ToField_ok by lia. reflexivity.
Qed.

Lemma pubkeyToIndex_short pubkey inst :
  (List.length pubkey < 32)%nat ->
  pubkeyToIndex pubkey inst = Throw TypeError_undefined_to_BigInt.
Proof.
  intros Hlen. unfold pubkeyToIndex, bind.
  destruct (Nat.lt_ge_cases (List.length pubkey) 16) as [Hs|Hs].
  - now rewrite bytes16ToField_short by lia.
  - rewrite bytes16ToField_ok by lia.
    now rewrite bytes16ToField_short by lia.
Qed.

Lemma testbit_above a n m :
  0 <= a < 2 ^ n -> n <= m -> Z.testbit a m = false.
Proof.
  intros Ha Hm.
  destruct (Z.eq_dec a 0) as [->|Hz]; [apply Z.bits_0|].
  apply Z.bits_above_log2; [lia|].
  assert (Z.log2 a < n); [|lia].
  apply Z.log2_lt_pow2; lia.
Qed.

Lemma testbit_shiftr_odd index l :
  0 <= l -> Z.testbit index l = Z.odd (Z.shiftr index l).
Proof.
  intros Hl. rewrite <- Z.bit0_odd, Z.shiftr_spec by lia. reflexivity.
Qed.

Lemma getPathBits_spec index :
  List.length (getPathBits index) = TREE_DEPTH /\
  forall i, (i < TREE_DEPTH)%nat ->
            nth i (getPathBits index) false = Z.testbit index (Z.of_nat i).
Proof.
  unfold getPathBits.
  match goal with
  | |- context [for_pure 0 TREE_DEPTH ?body ?s0] =>
      pose proof (for_pure_inv
                    (fun i (st : list bool * Z) =>
                       List.length (fst st) = i /\
                       snd st = Z.shiftr index (Z.of_nat i) /\
                       forall j, (j < i)%nat ->
                                 nth j (fst st) false
                                 = Z.testbit index (Z.of_nat j))
                    body TREE_DEPTH O s0) as Hinv
  end.
  rewrite Nat.add_0_l in Hinv.
  destruct Hinv as (Hlen & _ & Hbits).
  - cbn [fst snd]. repeat split. intros j Hj. lia.
  - intros i [bits val] _ (Hlen & Hval & Hbits). cbn [fst snd] in *.
    split; [|split].
    + rewrite length_app. simpl. lia.
    + rewrite Hval, Z.shiftr_shiftr by lia. f_equal. lia.
    + intros j Hj. destruct (Nat.eq_dec j i) as [->|N].
      * rewrite <- Hlen at 1. rewrite nth_middle.
        rewrite land_1_odd, Hval. symmetry.
        apply testbit_shiftr_odd. lia.
      * rewrite app_nth1 by lia. apply Hbits. lia.
  - split; assumption.
Qed.

Lemma posAtLevel_spec pathBits index level :
  0 <= index < 2 ^ Z.of_nat TREE_DEPTH ->
  (level <= TREE_DEPTH)%nat ->
  (forall i, (i < TREE_DEPTH)%nat ->
             nth i pathBits false = Z.testbit index (Z.of_nat i)) ->
  posAtLevel pathBits level = Z.shiftr index (Z.of_nat level).
Proof.
  intros Hidx Hlev Hbits. unfold posAtLevel.
  match goal with
  | |- for_pure level _ ?body ?s0 = _ =>
      pose proof (for_pure_inv
                    (fun i pos =>
                       forall j, 0 <= j ->
                         Z.testbit pos j
                         = ((j + Z.of_nat level <? Z.of_nat i)
                            && Z.testbit index (j + Z.of_nat level))%bool)
                    body (TREE_DEPTH - level) level s0) as Hinv
  end.
  replace (level + (TREE_DEPTH - level))%nat with TREE_DEPTH in Hinv by lia.
  apply Z.bits_inj'. intros j Hj.
  rewrite Hinv; try assumption.
  - rewrite Z.shiftr_spec by lia.
    destruct (Z.ltb_spec (j + Z.of_nat level) (Z.of_nat TREE_DEPTH));
      [reflexivity|].
    symmetry. apply (testbit_above index (Z.of_nat TREE_DEPTH)); lia.
  - intros j' Hj'. rewrite Z.bits_0.
    destruct (Z.ltb_spec (j' + Z.of_nat level) (Z.of_nat level));
      [lia | reflexivity].
  - intros i pos Hi Hpos j' Hj'.
    rewrite (Hbits i) by lia.
    assert (Hcase : j' + Z.of_nat level = Z.of_nat i
                    \/ j' + Z.of_nat level <> Z.of_nat i) by lia.
    destruct (Z.testbit index (Z.of_nat i)) eqn:Hb.
    + rewrite Z.lor_spec, Hpos, Z.shiftl_1_l, Z.pow2_bits_eqb by lia.
      destruct Hcase as [Hc|Hc].
      * rewrite Hc, Hb.
        replace (Z.of_nat (i - level) =? j') with true
          by (symmetry; apply Z.eqb_eq; lia).
        destruct (Z.ltb_spec (Z.of_nat i) (Z.of_nat (S i))); [|lia].
        now rewrite orb_true_r.
      * replace (Z.of_nat (i - level) =? j') with false
          by (symmetry; apply Z.eqb_neq; lia).
        rewrite orb_false_r. f_equal.
        destruct (Z.ltb_spec (j' + Z.of_nat level) (Z.of_nat i)),
                 (Z.ltb_spec (j' + Z.of_nat level) (Z.of_nat (S i)));
          try reflexivity; lia.
    + rewrite Hpos by lia.
      destruct Hcase as [Hc|Hc].
      * rewrite Hc, Hb, !andb_false_r. reflexivity.
      * f_equal.
        destruct (Z.ltb_spec (j' + Z.of_nat level) (Z.of_nat i)),
                 (Z.ltb_spec (j' + Z.of_nat level) (Z.of_nat (S i)));
          try reflexivity; lia.
Qed.

(** Folding the siblings of a path of the Merkle tree over [f0] walks up
    that tree. *)
Lemma fold_siblings_subtree (H : Poseidon) f0 index :
  forall sibs l cur,
    cur = subtree H f0 l (Z.shiftr index (Z.of_nat l)) ->
    (forall j, (j < List.length sibs)%nat ->
               nth j sibs 0
               = subtree H f0 (l + j)
                   (sibling_of (Z.shiftr index (Z.of_nat (l + j))))) ->
    fold_siblings H index l cur sibs
    = subtree H f0 (l + List.length sibs)
        (Z.shiftr index (Z.of_nat (l + List.length sibs))).
Proof.
  induction sibs as [|s sibs IH]; intros l cur Hcur Hs.
  - simpl. rewrite Nat.add_0_r. exact Hcur.
  - cbn [fold_siblings List.length].
    replace (l + S (List.length sibs))%nat
      with (S l + List.length sibs)%nat by lia.
    apply IH.
    + pose proof (Hs O ltac:(simpl; lia)) as H0.
      rewrite Nat.add_0_r in H0. cbn [nth] in H0.
      set (p := Z.shiftr index (Z.of_nat l)) in *.
      assert (Hp : Z.shiftr index (Z.of_nat (S l)) = p / 2).
      { rewrite Nat2Z.inj_succ, <- Z.add_1_r.
        rewrite <- Z.shiftr_shiftr by lia. apply shiftr_1_div. }
      rewrite Hp. cbn [subtree].
      rewrite testbit_shiftr_odd by lia. fold p.
      unfold sibling_of in H0.
      destruct (Z.odd p) eqn:Ho.
      * pose proof (odd_child p Ho).
        replace (2 * (p / 2)) with (p - 1) by lia.
        replace (p - 1 + 1) with p by lia. now rewrite H0, Hcur.
      * pose proof (even_child p Ho).
        replace (2 * (p / 2)) with p by lia. now rewrite H0, Hcur.
    + intros j Hj. specialize (Hs (S j) ltac:(simpl; lia)).
      cbn [nth] in Hs. rewrite Hs. f_equal; [lia|]. do 3 f_equal. lia.
Qed.

(** [new SparseMerkleTree()] with the hasher in place. *)
Lemma constructor_spec (H : Poseidon) :
  exists t, constructor (Some H) = Ok t
            /\ leaves t = JsMap.empty
            /\ ladder_ok H (defaultHashes t).
Proof.
  unfold constructor, bind.
  match goal with
  | |- context [for_range 1 TREE_DEPTH ?body ?s0 (Some H)] =>
      destruct (for_range_inv
                  (fun i dh =>
                     List.length dh = 255%nat /\
                     array_get dh 0 = 0 /\
                     forall j, (1 <= j < i)%nat ->
                               array_get dh j
                               = H (array_get dh (j - 1))
                                   (array_get dh (j - 1)))
                  (Some H) body TREE_DEPTH 1%nat s0)
        as (dh & E & Hlen & H0 & Hl)
  end.
  - split; [reflexivity|]. split; [reflexivity|]. intros j Hj. lia.
  - intros i dh Hi (Hlen & H0 & Hl).
    eexists. split; [unfold bind, poseidonHash2, getPoseidon; reflexivity|].
    unfold ret. split; [|split].
    + now rewrite array_set_length.
    + rewrite array_get_set_other by lia. exact H0.
    + intros j Hj. destruct (Nat.eq_dec j i) as [->|N].
      * rewrite array_get_set_same by (unfold TREE_DEPTH in Hi; lia).
        now rewrite array_get_set_other by lia.
      * rewrite !array_get_set_other by lia. apply Hl. lia.
  - rewrite E. eexists. split; [reflexivity|]. split; [reflexivity|].
    cbn [defaultHashes]. split; [exact Hlen|]. split; [exact H0|].
    intros i Hi. apply Hl. unfold TREE_DEPTH. lia.
Qed.

(* ------------------------------------------------------------------------- *)
(** ** The engine over a hasher with 254-bit outputs *)

Section Engine.

Variable H : Poseidon.

(** Outputs of the hasher are field elements of the BN254 scalar field,
    hence non-negative and below [2 ^ 254]. *)
Hypothesis H_range : forall a b, 0 <= H a b < 2 ^ 254.

Lemma insert_spec pubkey value t :
  (32 <= List.length pubkey)%nat ->
  insert pubkey (Some value) t (Some H)
  = Ok (tt, {| leaves := JsMap.set (toString (index_of H pubkey)) value
                           (leaves t);
               defaultHashes := defaultHashes t |}).
Proof.
  intros Hlen. unfold insert, bind.
  now rewrite pubkeyToIndex_ok by assumption.
Qed.

Lemma insert_inv pubkey value t t' :
  insert pubkey (Some value) t (Some H) = Ok (tt, t') ->
  (32 <= List.length pubkey)%nat
  /\ t' = {| leaves := JsMap.set (toString (index_of H pubkey)) value
                         (leaves t);
             defaultHashes := defaultHashes t |}.
Proof.
  intros E.
  destruct (Nat.lt_ge_cases (List.length pubkey) 32) as [Hs|Hs].
  - unfold insert, bind in E.
    rewrite pubkeyToIndex_short in E by assumption. discriminate.
  - split; [assumption|]. rewrite insert_spec in E by assumption.
    congruence.
Qed.

(** What holds of every engine built by the constructor and insertions. *)
Lemma built_by_inv history t :
  built_by H history t ->
  ladder_ok H (defaultHashes t)
  /\ wf_level TREE_DEPTH (leaves t)
  /\ (forall key, In key (JsMap.keys (leaves t)) <->
                  exists pubkey value,
                    In (pubkey, value) history
                    /\ key = toString (index_of H pubkey))
  /\ (forall pubkey value, In (pubkey, value) history ->
                           (32 <= List.length pubkey)%nat).
Proof.
  induction 1 as [t E|history t pubkey value t' B IH E].
  - destruct (constructor_spec H) as (t0 & E0 & Hl & Hd).
    rewrite E0 in E. injection E as <-.
    split; [exact Hd|]. rewrite Hl. split; [|split].
    + split; [constructor | intros key []].
    + intros key. split; [intros [] | intros (? & ? & [] & _)].
    + intros ? ? [].
  - destruct IH as (Hd & [ND Hk] & Hkeys & Hlens).
    apply insert_inv in E. destruct E as [Hlen ->]. cbn [leaves defaultHashes].
    split; [exact Hd|]. split; [split|split].
    4:{ intros pk v Hin. apply in_app_or in Hin.
        destruct Hin as [Hin|[[= -> ->]|[]]]; [eauto | assumption]. }
    + now apply jsmap_set_NoDup.
    + intros key Hin. apply jsmap_keys_set in Hin.
      destruct Hin as [->|Hin]; [|now apply Hk].
      exists (index_of H pubkey). split; [reflexivity|].
      apply H_range.
    + intros key. rewrite jsmap_keys_set, Hkeys. split.
      * intros [->|(pk & v & Hin & ->)].
        -- exists pubkey, value. split; [|reflexivity].
           apply in_or_app. right. now left.
        -- exists pk, v. split; [|reflexivity].
           apply in_or_app. now left.
      * intros (pk & v & Hin & ->).
        apply in_app_or in Hin. destruct Hin as [Hin|[[= -> ->]|[]]].
        -- right. eauto.
        -- now left.
Qed.

Lemma copyLeaves_id t :
  NoDup (JsMap.keys (leaves t)) -> copyLeaves t = leaves t.
Proof.
  intros ND. unfold copyLeaves, JsMap.entries, JsMap.empty.
  now rewrite jsmap_copy.
Qed.

(** An all-default subtree hashes to the ladder entry of its height. *)
Lemma subtree_default dh f0 :
  ladder_ok H dh ->
  (forall q, f0 q = 0) ->
  forall l q, (l <= 254)%nat -> subtree H f0 l q = array_get dh l.
Proof.
  intros (_ & H0 & Hl) Hf. induction l as [|l IH]; intros q Hle.
  - simpl. now rewrite Hf, H0.
  - cbn [subtree]. rewrite !IH by lia.
    rewrite (Hl (S l)) by lia.
    now replace (S l - 1)%nat with l by lia.
Qed.

(** [getRoot] returns the Merkle root of the tree over the stored leaves
    and leaves the engine as it was. *)
Lemma getRoot_subtree t :
  ladder_ok H (defaultHashes t) ->
  wf_level TREE_DEPTH (leaves t) ->
  getRoot t (Some H)
  = Ok (subtree H (node (leaves t) 0) TREE_DEPTH 0, t).
Proof.
  intros Hd Hwf. pose proof Hd as (Hlen & H0 & Hl).
  unfold getRoot.
  destruct (leaves t) as [|e m] eqn:El.
  - cbn [JsMap.size List.length Nat.eqb]. unfold ret. f_equal. f_equal.
    symmetry.
    apply (subtree_default (defaultHashes t)); try assumption.
    + reflexivity.
    + unfold TREE_DEPTH. lia.
  - rewrite <- El in *. replace (JsMap.size (leaves t) =? 0)%nat with false.
    2:{ rewrite El. reflexivity. }
    destruct (rootLevels_run H t
                (fun l cur =>
                   forall q, 0 <= q < 2 ^ Z.of_nat (TREE_DEPTH - l) ->
                             node cur (array_get (defaultHashes t) l) q
                             = subtree H (node (leaves t) 0) l q))
      as (final & E & _ & Hfinal).
    + rewrite copyLeaves_id by apply Hwf. exact Hwf.
    + intros q _. rewrite copyLeaves_id by apply Hwf. now rewrite H0.
    + intros l cur next Hlt Hw HP Hs q Hq.
      apply (level_step_subtree H _ (array_get (defaultHashes t) l) _
               (TREE_DEPTH - S l) l cur next); try assumption.
      * rewrite (Hl (S l)) by (unfold TREE_DEPTH in Hlt; lia).
        now replace (S l - 1)%nat with l by lia.
      * replace (S (TREE_DEPTH - S l)) with (TREE_DEPTH - l)%nat by lia.
        exact HP.
    + unfold bind. rewrite E. unfold ret. f_equal. f_equal.
      apply (Hfinal 0). rewrite Nat.sub_diag. simpl. lia.
Qed.


Lemma sibling_of_range p k :
  0 <= p < 2 ^ Z.of_nat (S k) -> 0 <= sibling_of p < 2 ^ Z.of_nat (S k).
Proof.
  intros Hp. pose proof (half_range p k Hp) as Hh.
  rewrite Nat2Z.inj_succ, Z.pow_succ_r in * by lia.
  unfold sibling_of. destruct (Z.odd p) eqn:Ho.
  - pose proof (odd_child p Ho). lia.
  - pose proof (even_child p Ho). lia.
Qed.

Lemma shiftr_range index l :
  (l <= TREE_DEPTH)%nat -> 0 <= index < 2 ^ 254 ->
  0 <= Z.shiftr index (Z.of_nat l) < 2 ^ Z.of_nat (TREE_DEPTH - l).
Proof.
  intros Hl Hi. rewrite Z.shiftr_div_pow2 by lia.
  assert (0 < 2 ^ Z.of_nat l) by (apply Z.pow_pos_nonneg; lia).
  split; [apply Z.div_pos; lia|].
  apply Z.div_lt_upper_bound; [lia|].
  rewrite <- Z.pow_add_r by lia.
  replace (Z.of_nat l + Z.of_nat (TREE_DEPTH - l)) with 254; [lia|].
  unfold TREE_DEPTH in *. lia.
Qed.

(** [getMerkleProof] returns the stored leaf value and the 254 siblings
    of the leaf's path in the Merkle tree over the stored leaves. *)
Lemma getMerkleProof_subtree pubkey t :
  ladder_ok H (defaultHashes t) ->
  wf_level TREE_DEPTH (leaves t) ->
  (32 <= List.length pubkey)%nat ->
  exists sibs,
    getMerkleProof pubkey t (Some H)
    = Ok ({| siblings := sibs;
             leafValue := node (leaves t) 0 (index_of H pubkey) |}, t)
    /\ List.length sibs = TREE_DEPTH
    /\ fold_siblings H (index_of H pubkey) 0
         (node (leaves t) 0 (index_of H pubkey)) sibs
       = subtree H (node (leaves t) 0) TREE_DEPTH 0.
Proof.
  intros Hd Hwf Hlen. pose proof Hd as (_ & H0 & Hl).
  set (index := index_of H pubkey).
  assert (Hidx : 0 <= index < 2 ^ 254) by apply H_range.
  set (f0 := node (leaves t) 0).
  destruct (getPathBits_spec index) as [_ Hbits].
  destruct (proofLevels_run H t (getPathBits index)
              (fun l sibs cur =>
                 List.length sibs = l
                 /\ (forall j, (j < l)%nat ->
                        nth j sibs 0
                        = subtree H f0 j
                            (sibling_of (Z.shiftr index (Z.of_nat j))))
                 /\ forall q, 0 <= q < 2 ^ Z.of_nat (TREE_DEPTH - l) ->
                              node cur (array_get (defaultHashes t) l) q
                              = subtree H f0 l q))
    as (sibs & final & E & Hn & Hs & _).
  - rewrite copyLeaves_id by apply Hwf. exact Hwf.
  - split; [reflexivity|]. split; [intros j Hj; lia|].
    intros q _. rewrite copyLeaves_id by apply Hwf. now rewrite H0.
  - intros l sibs cur next Hlt Hw (Hn & Hs & Hc) Hstep.
    assert (Hk : (TREE_DEPTH - l = S (TREE_DEPTH - S l))%nat) by lia.
    split; [|split].
    + rewrite length_app. simpl. lia.
    + intros j Hj. destruct (Nat.eq_dec j l) as [->|N].
      * rewrite <- Hn at 1. rewrite nth_middle.
        unfold recorded.
        rewrite (posAtLevel_spec _ index) by (assumption || lia).
        rewrite Hbits by assumption.
        rewrite testbit_shiftr_odd by lia.
        fold (sibling_of (Z.shiftr index (Z.of_nat l))).
        apply Hc. rewrite Hk. apply sibling_of_range.
        rewrite <- Hk. apply shiftr_range; [lia | assumption].
      * rewrite app_nth1 by lia. apply Hs. lia.
    + intros q Hq.
      apply (level_step_subtree H _ (array_get (defaultHashes t) l) _
               (TREE_DEPTH - S l) l cur next); try assumption.
      * rewrite (Hl (S l)) by (unfold TREE_DEPTH in Hlt; lia).
        now replace (S l - 1)%nat with l by lia.
      * rewrite <- Hk. exact Hc.
  - exists sibs. split; [|split; [exact Hn|]].
    + unfold getMerkleProof, bind.
      rewrite pubkeyToIndex_ok by assumption.
      fold (index_of H pubkey). fold index. rewrite E. reflexivity.
    + rewrite (fold_siblings_subtree H f0 index sibs 0 (f0 index)).
      * rewrite Nat.add_0_l, Hn. f_equal.
        rewrite Z.shiftr_div_pow2 by lia. apply Z.div_small.
        exact Hidx.
      * simpl. now rewrite Z.shiftr_0_r.
      * intros j Hj. rewrite Nat.add_0_l. apply Hs. lia.
Qed.

End Engine.

(* ------------------------------------------------------------------------- *)
(** ** Sample runs *)

Lemma mock_hash_range a b : 0 <= mock_hash a b < 2 ^ 254.
Proof.
  unfold mock_hash.
  pose proof (Z.mod_pos_bound (31 * a + 17 * b + a * b + 1) 65521
                ltac:(lia)).
  assert (65521 < 2 ^ 254) by reflexivity. lia.
Qed.

Lemma fold_inserts_built_by H history : forall r0 h0 t,
  (forall t0, r0 = Ok t0 -> built_by H h0 t0) ->
  fold_left
    (fun r '(pubkey, value) =>
       match r with
       | Ok t =>
           match insert pubkey (Some value) t (Some H) with
           | Ok (_, t') => Ok t'
           | Throw e => Throw e
           end
       | Throw e => Throw e
       end)
    history r0 = Ok t ->
  built_by H (h0 ++ history)%list t.
Proof.
  induction history as [|[pubkey value] history IH]; intros r0 h0 t B0 E.
  - cbn [fold_left] in E. rewrite app_nil_r. now apply B0.
  - cbn [fold_left] in E.
    replace (h0 ++ (pubkey, value) :: history)%list
      with ((h0 ++ [(pubkey, value)]) ++ history)%list
      by (rewrite <- app_assoc; reflexivity).
    revert E. apply IH.
    intros t1 E1. destruct r0 as [t0|e]; [|discriminate].
    destruct (insert pubkey (Some value) t0 (Some H)) as [[[] t2]|e] eqn:E2;
      [|discriminate].
    injection E1 as <-.
    apply (built_insert H h0 t0 pubkey value t2); [|exact E2].
    now apply B0.
Qed.

Lemma engine_of_built_by H history t :
  engine_of H history = Ok t -> built_by H history t.
Proof.
  intros E.
  apply (fold_inserts_built_by H history (constructor (Some H)) [] t);
    [|exact E].
  intros t0 E0. apply built_new. exact E0.
Qed.

Lemma identity32_sample (b : Z) :
  0 <= b < 256 -> identity32 (repeat b 32).
Proof.
  intros Hb. split; [apply repeat_length|].
  apply Forall_forall. intros x Hx. apply repeat_spec in Hx. now subst.
Qed.

Lemma insert_default_value pubkey :
  insert pubkey None = insert pubkey (Some 1).
Proof. reflexivity. Qed.

(* ------------------------------------------------------------------------- *)
(** ** Identities outnumber indices

    There are [2 ^ 256] identities of 32 bytes and fewer than [2 ^ 254]
    leaf indices: whatever the hasher, two distinct identities share an
    index. *)

Lemma le_bytes_length n : forall k, List.length (le_bytes n k) = n.
Proof.
  induction n as [|n IH]; intros k; simpl; [reflexivity | now rewrite IH].
Qed.

Lemma le_bytes_range n : forall k,
  Forall (fun b => 0 <= b < 256) (le_bytes n k).
Proof.
  induction n as [|n IH]; intros k; cbn [le_bytes]; constructor.
  - apply Z.mod_pos_bound. lia.
  - apply IH.
Qed.

Lemma le_value_le_bytes n : forall k,
  0 <= k -> le_value (le_bytes n k) = k mod 256 ^ Z.of_nat n.
Proof.
  induction n as [|n IH]; intros k Hk; cbn [le_bytes le_value].
  - now rewrite Z.mod_1_r.
  - rewrite IH by (apply Z.div_pos; lia).
    rewrite Nat2Z.inj_succ, Z.pow_succ_r by lia.
    assert (0 < 256 ^ Z.of_nat n) by (apply Z.pow_pos_nonneg; lia).
    rewrite Z.rem_mul_r by lia. lia.
Qed.

Lemma le_bytes_inj i j :
  0 <= i < 256 ^ 32 -> 0 <= j < 256 ^ 32 ->
  le_bytes 32 i = le_bytes 32 j -> i = j.
Proof.
  intros Hi Hj E. apply (f_equal le_value) in E.
  rewrite !le_value_le_bytes in E by lia.
  change (Z.of_nat 32) with 32 in E.
  rewrite !Z.mod_small in E by lia. exact E.
Qed.

Lemma bounded_search (g : Z -> Z) (a : Z) (n : nat) :
  (exists i, 0 <= i <= Z.of_nat n /\ g i = a)
  \/ (forall i, 0 <= i <= Z.of_nat n -> g i <> a).
Proof.
  induction n as [|n IH].
  - destruct (Z.eq_dec (g 0) a) as [E|N].
    + left. exists 0. split; [simpl; lia | exact E].
    + right. intros i Hi. replace i with 0 by (simpl in Hi; lia). exact N.
  - destruct IH as [(i & Hi & E)|Hno].
    + left. exists i. split; [lia | exact E].
    + destruct (Z.eq_dec (g (Z.of_nat (S n))) a) as [E|N].
      * left. exists (Z.of_nat (S n)). split; [lia | exact E].
      * right. intros i Hi.
        destruct (Z.eq_dec i (Z.of_nat (S n))) as [->|Ni]; [exact N|].
        apply Hno. lia.
Qed.

Lemma pigeonhole (n : nat) : forall g : Z -> Z,
  (forall k, 0 <= k <= Z.of_nat n -> 0 <= g k < Z.of_nat n) ->
  exists i j, 0 <= i < j /\ j <= Z.of_nat n /\ g i = g j.
Proof.
  induction n as [|n IH]; intros g Hg.
  - specialize (Hg 0 ltac:(simpl; lia)). simpl in Hg. lia.
  - set (a := g (Z.of_nat (S n))).
    assert (Ha : 0 <= a < Z.of_nat (S n)) by (apply Hg; lia).
    destruct (bounded_search g a n) as [(i & Hi & E)|Hno].
    + exists i, (Z.of_nat (S n)). repeat split; try lia; exact E.
    + destruct (IH (fun k => if g k <? a then g k else g k - 1))
        as (i & j & Hij & Hj & E).
      * intros k Hk. specialize (Hg k ltac:(lia)).
        specialize (Hno k Hk).
        destruct (Z.ltb_spec (g k) a); lia.
      * exists i, j. repeat split; try lia.
        pose proof (Hno i ltac:(lia)). pose proof (Hno j ltac:(lia)).
        destruct (Z.ltb_spec (g i) a), (Z.ltb_spec (g j) a); lia.
Qed.

Lemma pigeonhole_Z (N : Z) (g : Z -> Z) :
  0 <= N ->
  (forall k, 0 <= k <= N -> 0 <= g k < N) ->
  exists i j, 0 <= i < j /\ j <= N /\ g i = g j.
Proof.
  intros HN Hg.
  destruct (pigeonhole (Z.to_nat N) g) as (i & j & Hij & Hj & E).
  - rewrite Z2Nat.id by assumption. exact Hg.
  - rewrite Z2Nat.id in Hj by assumption. eauto.
Qed.

(** Every hasher with outputs below [2 ^ 254] sends two distinct 32-byte
    identities to the same leaf index. *)
Lemma index_collision (H : Poseidon) :
  (forall a b, 0 <= H a b < 2 ^ 254) ->
  exists X Y,
    identity32 X /\ identity32 Y /\ X <> Y
    /\ pubkeyToIndex X (Some H) = pubkeyToIndex Y (Some H).
Proof.
  intros H_range.
  destruct (pigeonhole_Z (2 ^ 254) (fun k => index_of H (le_bytes 32 k)))
    as (i & j & Hij & Hj & E).
  - lia.
  - intros k _. apply H_range.
  - assert (Hb : 2 ^ 254 < 256 ^ 32) by reflexivity.
    exists (le_bytes 32 i), (le_bytes 32 j).
    split; [split; [apply le_bytes_length | apply le_bytes_range]|].
    split; [split; [apply le_bytes_length | apply le_bytes_range]|].
    split.
    + intros Eb. apply le_bytes_inj in Eb; lia.
    + rewrite !pubkeyToIndex_ok by (rewrite le_bytes_length; lia).
      f_equal. exact E.
Qed.

(** So, whatever the hasher, some identity that was never inserted reads a
    non-zero leaf. *)
Lemma exclusion_needs_fresh_index (H : Poseidon) :
  (forall a b, 0 <= H a b < 2 ^ 254) ->
  exists X Y t sibs,
    identity32 X /\ identity32 Y /\ X <> Y
    /\ built_by H [(Y, 1)] t
    /\ getMerkleProof X t (Some H)
       = Ok ({| siblings := sibs; leafValue := 1 |}, t).
Proof.
  intros H_range.
  destruct (index_collision H H_range) as (X & Y & HX & HY & Hne & E).
  destruct (constructor_spec H) as (t0 & E0 & Hl0 & Hd0).
  pose proof (insert_spec H Y 1 t0 ltac:(destruct HY; lia)) as Eins.
  set (t := {| leaves := JsMap.set (toString (index_of H Y)) 1 (leaves t0);
               defaultHashes := defaultHashes t0 |}) in *.
  assert (B : built_by H ([] ++ [(Y, 1)])%list t).
  { eapply built_insert; [apply built_new|]; eassumption. }
  destruct (built_by_inv H H_range _ t B) as (Hd & Hwf & _ & _).
  destruct (getMerkleProof_subtree H H_range X t Hd Hwf
              ltac:(destruct HX; lia)) as (sibs & Ep & _ & _).
  rewrite !pubkeyToIndex_ok in E by (destruct HX, HY; lia).
  injection E as E. fold (index_of H X) (index_of H Y) in E.
  assert (Hleaf : node (leaves t) 0 (index_of H X) = 1).
  { unfold node, lookup. rewrite E. cbn [leaves t].
    now rewrite jsmap_get_set_same. }
  rewrite Hleaf in Ep.
  exists X, Y, t, sibs. repeat split; try assumption; apply HX || apply HY.
Qed.

(* ========================================================================= *)
(** * The claims of the specification *)

(** C1, as the specification words it, fails: an identity that was never
    inserted still reads a non-zero leaf when an inserted identity has the
    same leaf index.  Under [mock_hash] the identities [identity_P] and
    [identity_Q] are distinct and share an index; after [insert(Q, 1)] the
    proof for [P] carries [leafValue = 1]. *)
Lemma C1_never_inserted_counterexample :
  (forall a b, 0 <= mock_hash a b < 2 ^ 254)
  /\ identity32 identity_P
  /\ ~ In identity_P (map fst [(identity_Q, 1)])
  /\ built_by mock_hash [(identity_Q, 1)] engine_Q
  /\ exists sibs,
      getMerkleProof identity_P engine_Q (Some mock_hash)
      = Ok ({| siblings := sibs; leafValue := 1 |}, engine_Q).
Proof.
  split; [exact mock_hash_range|].
  split.
  { split; [reflexivity|].
    repeat (constructor; [lia|]). constructor. }
  split.
  { simpl. intros [E|[]]. discriminate. }
  split.
  { apply engine_of_built_by. vm_compute. reflexivity. }
  eexists. vm_compute. reflexivity.
Qed.

(** C1 (amended): for every 32-byte identity whose leaf index is not the
    leaf index of any identity inserted so far, [getMerkleProof] returns
    [leafValue = 0] and 254 siblings whose fold from 0 along the bits of
    the leaf index is the value [getRoot] returns on the same engine. *)
Theorem C1_exclusion_round_trip (H : Poseidon) history t X :
  (forall a b, 0 <= H a b < 2 ^ 254) ->
  built_by H history t ->
  identity32 X ->
  (forall Y v, In (Y, v) history ->
               pubkeyToIndex Y (Some H) <> pubkeyToIndex X (Some H)) ->
  exists index sibs root,
    pubkeyToIndex X (Some H) = Ok index
    /\ getMerkleProof X t (Some H)
       = Ok ({| siblings := sibs; leafValue := 0 |}, t)
    /\ List.length sibs = 254%nat
    /\ getRoot t (Some H) = Ok (root, t)
    /\ fold_siblings H index 0 0 sibs = root.
Proof.
  intros H_range B [Hlen _] Hfresh.
  destruct (built_by_inv H H_range history t B)
    as (Hd & Hwf & Hkeys & Hlens).
  assert (Hnone : lookup (leaves t) (index_of H X) = None).
  { apply jsmap_get_None. intros Hin.
    apply Hkeys in Hin. destruct Hin as (Y & v & HinY & E).
    apply toString_inj in E; try apply H_range.
    apply (Hfresh Y v HinY).
    rewrite !pubkeyToIndex_ok by (eauto || lia).
    unfold index_of in E. now rewrite E. }
  destruct (getMerkleProof_subtree H H_range X t Hd Hwf ltac:(lia))
    as (sibs & E & Hn & Hfold).
  assert (Hleaf : node (leaves t) 0 (index_of H X) = 0)
    by (unfold node; now rewrite Hnone).
  rewrite Hleaf in E, Hfold.
  exists (index_of H X), sibs, (subtree H (node (leaves t) 0) TREE_DEPTH 0).
  split; [apply pubkeyToIndex_ok; lia|].
  split; [exact E|]. split; [exact Hn|].
  split; [now apply getRoot_subtree | exact Hfold].
Qed.

Lemma C1_exclusion_round_trip_witness :
  exists index sibs root,
    pubkeyToIndex identity_C (Some mock_hash) = Ok index
    /\ getMerkleProof identity_C engine_AB (Some mock_hash)
       = Ok ({| siblings := sibs; leafValue := 0 |}, engine_AB)
    /\ List.length sibs = 254%nat
    /\ getRoot engine_AB (Some mock_hash) = Ok (root, engine_AB)
    /\ fold_siblings mock_hash index 0 0 sibs = root.
Proof.
  apply (C1_exclusion_round_trip mock_hash
           [(identity_A, 1); (identity_B, 1)] engine_AB identity_C).
  - exact mock_hash_range.
  - apply engine_of_built_by. vm_compute. reflexivity.
  - apply identity32_sample. lia.
  - intros Y v [[= <- <-]|[[= <- <-]|[]]]; vm_compute; discriminate.
Defined.

(** C2: for every 32-byte identity [X] and value [v], after
    [insert(X, v)] the call [getMerkleProof(X)] returns [leafValue = v]
    and 254 siblings whose fold from [v] along the bits of the leaf index
    of [X] is the value [getRoot] returns on the engine after the
    insertion. *)
Theorem C2_inclusion_round_trip (H : Poseidon) history t X v :
  (forall a b, 0 <= H a b < 2 ^ 254) ->
  built_by H history t ->
  identity32 X ->
  exists t' index sibs root,
    insert X (Some v) t (Some H) = Ok (tt, t')
    /\ pubkeyToIndex X (Some H) = Ok index
    /\ getMerkleProof X t' (Some H)
       = Ok ({| siblings := sibs; leafValue := v |}, t')
    /\ List.length sibs = 254%nat
    /\ getRoot t' (Some H) = Ok (root, t')
    /\ fold_siblings H index 0 v sibs = root.
Proof.
  intros H_range B [Hlen _].
  pose proof (insert_spec H X v t ltac:(lia)) as Eins.
  set (t' := {| leaves := JsMap.set (toString (index_of H X)) v (leaves t);
                defaultHashes := defaultHashes t |}) in *.
  assert (B' : built_by H (history ++ [(X, v)])%list t')
    by (eapply built_insert; eassumption).
  destruct (built_by_inv H H_range _ t' B') as (Hd & Hwf & _ & _).
  assert (Hsome : lookup (leaves t') (index_of H X) = Some v)
    by apply jsmap_get_set_same.
  destruct (getMerkleProof_subtree H H_range X t' Hd Hwf ltac:(lia))
    as (sibs & E & Hn & Hfold).
  assert (Hleaf : node (leaves t') 0 (index_of H X) = v)
    by (unfold node; now rewrite Hsome).
  rewrite Hleaf in E, Hfold.
  exists t', (index_of H X), sibs,
    (subtree H (node (leaves t') 0) TREE_DEPTH 0).
  split; [exact Eins|].
  split; [apply pubkeyToIndex_ok; lia|].
  split; [exact E|]. split; [exact Hn|].
  split; [now apply getRoot_subtree | exact Hfold].
Qed.

Lemma C2_inclusion_round_trip_witness :
  exists t' index sibs root,
    insert identity_B (Some 1) engine_A (Some mock_hash) = Ok (tt, t')
    /\ pubkeyToIndex identity_B (Some mock_hash) = Ok index
    /\ getMerkleProof identity_B t' (Some mock_hash)
       = Ok ({| siblings := sibs; leafValue := 1 |}, t')
    /\ List.length sibs = 254%nat
    /\ getRoot t' (Some mock_hash) = Ok (root, t')
    /\ fold_siblings mock_hash index 0 1 sibs = root.
Proof.
  apply (C2_inclusion_round_trip mock_hash [(identity_A, 1)] engine_A
           identity_B 1).
  - exact mock_hash_range.
  - apply engine_of_built_by. vm_compute. reflexivity.
  - apply identity32_sample. lia.
Defined.

(** C3, as the specification words it, fails: [pubkeyToIndex] has no length
    check.  A 33-byte input is not rejected; it is hashed like its first 32
    bytes. *)
Lemma C3_length_not_checked_counterexample :
  List.length (repeat 7 33) <> 32%nat
  /\ pubkeyToIndex (repeat 7 33) (Some mock_hash)
     = pubkeyToIndex (repeat 7 32) (Some mock_hash)
  /\ is_throw (pubkeyToIndex (repeat 7 33) (Some mock_hash)) = false.
Proof.
  split; [discriminate|]. split; vm_compute; reflexivity.
Qed.

(** C3 (amended): [pubkeyToIndex] does not check the length of its input.
    On fewer than 32 bytes it throws the TypeError of converting a missing
    element to a bigint, before any hashing; on 32 bytes or more it returns
    [hash2(low, high)], where [low] and [high] are bytes 0..15 and 16..31
    read as little-endian integers, and it ignores every byte after the
    32nd (with no hasher in place it throws instead). *)
Theorem C3_index_derivation (pubkey : list Z) (inst : option Poseidon) :
  pubkeyToIndex pubkey inst
  = (if (List.length pubkey <? 32)%nat
     then Throw TypeError_undefined_to_BigInt
     else match inst with
          | Some H => Ok (H (low128 pubkey) (high128 pubkey))
          | None => Throw PoseidonNotInitialized
          end)
  /\ low128 pubkey = low128 (firstn 32 pubkey)
  /\ high128 pubkey = high128 (firstn 32 pubkey).
Proof.
  split; [|split].
  - destruct (Nat.ltb_spec (List.length pubkey) 32) as [Hs|Hs].
    + now apply pubkeyToIndex_short.
    + destruct inst as [H|].
      * now apply pubkeyToIndex_ok.
      * now apply pubkeyToIndex_uninitialized.
  - unfold low128. now rewrite firstn_firstn.
  - unfold high128. rewrite !firstn_skipn_comm.
    now rewrite firstn_firstn.
Qed.

Lemma insert_keeps_ladder pubkey value this inst :
  defaultHashes (object_after (insert pubkey value this inst) this)
  = defaultHashes this.
Proof.
  unfold insert, bind. destruct (pubkeyToIndex pubkey inst); reflexivity.
Qed.

Lemma get_read_only pubkey this inst :
  object_after (get pubkey this inst) this = this.
Proof.
  unfold get, bind. destruct (pubkeyToIndex pubkey inst); reflexivity.
Qed.

Lemma isBlacklisted_read_only pubkey this inst :
  object_after (isBlacklisted pubkey this inst) this = this.
Proof.
  unfold isBlacklisted, get, bind.
  destruct (pubkeyToIndex pubkey inst); reflexivity.
Qed.

Lemma getRoot_read_only this inst :
  object_after (getRoot this inst) this = this.
Proof.
  unfold getRoot. destruct (JsMap.size (leaves this) =? 0)%nat;
    [reflexivity|].
  unfold bind. destruct (rootLevels this inst); reflexivity.
Qed.

Lemma getMerkleProof_read_only pubkey this inst :
  object_after (getMerkleProof pubkey this inst) this = this.
Proof.
  unfold getMerkleProof, bind.
  destruct (pubkeyToIndex pubkey inst) as [index|]; [|reflexivity].
  destruct (for_range 0 TREE_DEPTH (proofLevel this (getPathBits index))
              ([], copyLeaves this) inst) as [[sibs cur]|]; reflexivity.
Qed.

(** C4: the constructor leaves a ladder of exactly 255 values with
    [D[0] = 0] and [D[i] = hash2(D[i-1], D[i-1])] for [i] from 1 to 254,
    and no later operation ([insert], [get], [isBlacklisted], [getRoot],
    [getMerkleProof], [getEmptyRoot]) changes it. *)
Theorem C4_default_hash_ladder (H : Poseidon) :
  (exists t,
      constructor (Some H) = Ok t
      /\ List.length (defaultHashes t) = 255%nat
      /\ array_get (defaultHashes t) 0 = 0
      /\ forall i, (1 <= i <= 254)%nat ->
                   array_get (defaultHashes t) i
                   = H (array_get (defaultHashes t) (i - 1))
                       (array_get (defaultHashes t) (i - 1)))
  /\ forall this inst pubkey value,
      defaultHashes (object_after (insert pubkey value this inst) this)
      = defaultHashes this
      /\ defaultHashes (object_after (get pubkey this inst) this)
         = defaultHashes this
      /\ defaultHashes (object_after (isBlacklisted pubkey this inst) this)
         = defaultHashes this
      /\ defaultHashes (object_after (getRoot this inst) this)
         = defaultHashes this
      /\ defaultHashes (object_after (getMerkleProof pubkey this inst) this)
         = defaultHashes this
      /\ defaultHashes (object_after (getEmptyRoot this inst) this)
         = defaultHashes this.
Proof.
  split.
  - destruct (constructor_spec H) as (t & E & _ & Hlen & H0 & Hl).
    exists t. repeat split; assumption.
  - intros this inst pubkey value.
    rewrite insert_keeps_ladder, get_read_only, isBlacklisted_read_only,
      getRoot_read_only, getMerkleProof_read_only.
    repeat split; reflexivity.
Qed.

Lemma C4_default_hash_ladder_witness :
  array_get (defaultHashes engine_fresh) 2
  = mock_hash (array_get (defaultHashes engine_fresh) 1)
      (array_get (defaultHashes engine_fresh) 1).
Proof.
  destruct (C4_default_hash_ladder mock_hash)
    as [(t & E & _ & _ & Hl) _].
  assert (Et : constructor (Some mock_hash) = Ok engine_fresh)
    by (vm_compute; reflexivity).
  rewrite Et in E. injection E as <-.
  apply (Hl 2%nat). lia.
Defined.

(** C5: on a freshly constructed engine [getRoot] returns [D[254]];
    [getEmptyRoot] returns [D[254]] on every engine, whatever its state;
    so on a fresh engine the two agree. *)
Theorem C5_empty_tree_root (H : Poseidon) :
  exists t,
    constructor (Some H) = Ok t
    /\ getRoot t (Some H) = Ok (array_get (defaultHashes t) 254, t)
    /\ (forall this inst,
           getEmptyRoot this inst
           = Ok (array_get (defaultHashes this) 254, this))
    /\ getRoot t (Some H) = getEmptyRoot t (Some H).
Proof.
  destruct (constructor_spec H) as (t & E & Hl & _).
  exists t. split; [exact E|].
  assert (Hroot : getRoot t (Some H)
                  = Ok (array_get (defaultHashes t) 254, t)).
  { unfold getRoot. rewrite Hl. reflexivity. }
  split; [exact Hroot|]. split; [reflexivity|].
  rewrite Hroot. reflexivity.
Qed.

Lemma jsmap_set_set k v1 v2 m :
  JsMap.set k v2 (JsMap.set k v1 m) = JsMap.set k v2 m.
Proof.
  induction m as [|[k0 v0] m IH]; simpl.
  - now rewrite String.eqb_refl.
  - destruct (String.eqb_spec k k0) as [->|N]; simpl.
    + now rewrite String.eqb_refl.
    + destruct (String.eqb_spec k k0); [contradiction|]. now rewrite IH.
Qed.

Lemma jsmap_set_size_present k v m :
  In k (JsMap.keys m) -> JsMap.size (JsMap.set k v m) = JsMap.size m.
Proof.
  unfold JsMap.size.
  induction m as [|[k0 v0] m IH]; simpl; intros Hin; [contradiction|].
  destruct (String.eqb_spec k k0) as [->|N]; simpl; [reflexivity|].
  f_equal. apply IH. destruct Hin; [congruence | assumption].
Qed.

(** C6: insertion overwrites by key.  After [insert(X, v1)] and then
    [insert(X, v2)] the leaf map holds exactly one entry at the index of
    [X], as many entries as after the first insertion, and [get(X)] is
    [v2]; when [v1 = v2] the engine, and so the value of [getRoot], is the
    one reached by inserting once. *)
Theorem C6_insert_overwrites (H : Poseidon) history t X v1 v2 :
  (forall a b, 0 <= H a b < 2 ^ 254) ->
  built_by H history t ->
  identity32 X ->
  exists t1 t2 index,
    insert X (Some v1) t (Some H) = Ok (tt, t1)
    /\ insert X (Some v2) t1 (Some H) = Ok (tt, t2)
    /\ pubkeyToIndex X (Some H) = Ok index
    /\ get X t2 (Some H) = Ok (v2, t2)
    /\ count_occ string_dec (JsMap.keys (leaves t2)) (toString index)
       = 1%nat
    /\ JsMap.size (leaves t2) = JsMap.size (leaves t1)
    /\ (v1 = v2 ->
        exists root, getRoot t1 (Some H) = Ok (root, t1)
                     /\ getRoot t2 (Some H) = Ok (root, t2)).
Proof.
  intros H_range B [Hlen _].
  pose proof (insert_spec H X v1 t ltac:(lia)) as E1.
  set (k := toString (index_of H X)) in *.
  set (t1 := {| leaves := JsMap.set k v1 (leaves t);
                defaultHashes := defaultHashes t |}) in *.
  pose proof (insert_spec H X v2 t1 ltac:(lia)) as E2.
  fold k in E2. cbn [leaves defaultHashes t1] in E2.
  set (t2 := {| leaves := JsMap.set k v2 (JsMap.set k v1 (leaves t));
                defaultHashes := defaultHashes t |}) in *.
  assert (B1 : built_by H (history ++ [(X, v1)])%list t1)
    by (eapply built_insert; eassumption).
  assert (B2 : built_by H ((history ++ [(X, v1)]) ++ [(X, v2)])%list t2)
    by (eapply built_insert; eassumption).
  destruct (built_by_inv H H_range _ t1 B1) as (Hd1 & Hwf1 & _ & _).
  destruct (built_by_inv H H_range _ t2 B2) as (Hd2 & Hwf2 & _ & _).
  exists t1, t2, (index_of H X).
  split; [exact E1|]. split; [exact E2|].
  split; [apply pubkeyToIndex_ok; lia|].
  split; [|split; [|split]].
  - unfold get, bind. rewrite pubkeyToIndex_ok by lia.
    fold (index_of H X). fold k. cbn [leaves t2].
    now rewrite jsmap_get_set_same.
  - fold k. apply NoDup_count_occ'; [apply Hwf2|].
    cbn [leaves t2]. apply jsmap_keys_set. now left.
  - cbn [leaves t1 t2]. apply jsmap_set_size_present.
    apply jsmap_keys_set. now left.
  - intros <-.
    assert (Et : t2 = t1).
    { unfold t2, t1. now rewrite jsmap_set_set. }
    rewrite Et. eexists. split; now apply getRoot_subtree.
Qed.

Lemma C6_insert_overwrites_witness :
  exists t1 t2 index,
    insert identity_A (Some 1) engine_fresh (Some mock_hash) = Ok (tt, t1)
    /\ insert identity_A (Some 2) t1 (Some mock_hash) = Ok (tt, t2)
    /\ pubkeyToIndex identity_A (Some mock_hash) = Ok index
    /\ get identity_A t2 (Some mock_hash) = Ok (2, t2)
    /\ count_occ string_dec (JsMap.keys (leaves t2)) (toString index)
       = 1%nat
    /\ JsMap.size (leaves t2) = JsMap.size (leaves t1)
    /\ (1 = 2 ->
        exists root, getRoot t1 (Some mock_hash) = Ok (root, t1)
                     /\ getRoot t2 (Some mock_hash) = Ok (root, t2)).
Proof.
  apply (C6_insert_overwrites mock_hash [] engine_fresh identity_A 1 2).
  - exact mock_hash_range.
  - apply engine_of_built_by. vm_compute. reflexivity.
  - apply identity32_sample. lia.
Defined.

Lemma subtree_ext H f g :
  (forall q, f q = g q) ->
  forall l q, subtree H f l q = subtree H g l q.
Proof.
  intros Hfg. induction l as [|l IH]; intros q; cbn [subtree].
  - apply Hfg.
  - now rewrite !IH.
Qed.

Lemma same_entries_same_get (m1 m2 : JsMap.t) :
  NoDup (JsMap.keys m1) -> NoDup (JsMap.keys m2) ->
  (forall e, In e (JsMap.entries m1) <-> In e (JsMap.entries m2)) ->
  forall k, JsMap.get k m1 = JsMap.get k m2.
Proof.
  intros ND1 ND2 Hsame k. unfold JsMap.entries in Hsame.
  destruct (JsMap.get k m1) as [v|] eqn:G1.
  - symmetry. apply jsmap_In_get; [assumption|].
    apply Hsame. now apply jsmap_get_In.
  - destruct (JsMap.get k m2) as [v|] eqn:G2; [|reflexivity].
    apply jsmap_get_In, Hsame, jsmap_In_get in G2; [|assumption].
    congruence.
Qed.

(** C7: [getRoot] is a function of the contents of the leaf map.  Two
    engines whose leaf maps hold the same (index, value) pairs, in whatever
    order they were inserted, return the same root; [getRoot] leaves the
    engine as it was, so a second call returns that root again. *)
Theorem C7_root_is_pure (H : Poseidon) history1 history2 t1 t2 :
  (forall a b, 0 <= H a b < 2 ^ 254) ->
  built_by H history1 t1 ->
  built_by H history2 t2 ->
  (forall e, In e (JsMap.entries (leaves t1))
             <-> In e (JsMap.entries (leaves t2))) ->
  exists root,
    getRoot t1 (Some H) = Ok (root, t1)
    /\ getRoot t2 (Some H) = Ok (root, t2)
    /\ (r1 <- getRoot t1 ;;
        r2 <- getRoot (snd r1) ;;
        ret (fst r1, fst r2, snd r2)) (Some H)
       = Ok (root, root, t1).
Proof.
  intros H_range B1 B2 Hsame.
  destruct (built_by_inv H H_range _ t1 B1) as (Hd1 & Hwf1 & _ & _).
  destruct (built_by_inv H H_range _ t2 B2) as (Hd2 & Hwf2 & _ & _).
  pose proof (getRoot_subtree H t1 Hd1 Hwf1) as E1.
  pose proof (getRoot_subtree H t2 Hd2 Hwf2) as E2.
  exists (subtree H (node (leaves t1) 0) TREE_DEPTH 0).
  split; [exact E1|]. split.
  - rewrite E2. do 2 f_equal. apply subtree_ext. intros q.
    unfold node, lookup. f_equal.
    apply same_entries_same_get; [apply Hwf2 | apply Hwf1 |].
    intros e. symmetry. apply Hsame.
  - unfold bind. rewrite E1. cbn [fst snd]. rewrite E1. reflexivity.
Qed.

Lemma C7_root_is_pure_witness :
  exists root,
    getRoot engine_AB (Some mock_hash) = Ok (root, engine_AB)
    /\ getRoot engine_BA (Some mock_hash) = Ok (root, engine_BA)
    /\ (r1 <- getRoot engine_AB ;;
        r2 <- getRoot (snd r1) ;;
        ret (fst r1, fst r2, snd r2)) (Some mock_hash)
       = Ok (root, root, engine_AB).
Proof.
  apply (C7_root_is_pure mock_hash [(identity_A, 1); (identity_B, 1)]
           [(identity_B, 1); (identity_A, 1)]).
  - exact mock_hash_range.
  - apply engine_of_built_by. vm_compute. reflexivity.
  - apply engine_of_built_by. vm_compute. reflexivity.
  - intros e. simpl. intuition.
Defined.

(** C8: when the leaf map is not empty and its keys are leaf indices below
    [2 ^ 254], the 254 passes of [getRoot] end with an entry at key "0",
    and [getRoot] returns that entry, not the fallback [D[254]].  The
    entry is the folded value: on an engine whose default hashes are the
    constructor's ladder it is the Merkle hash, over all [2 ^ 254]
    positions, of the tree whose leaves are the stored values and 0
    elsewhere. *)
Theorem C8_fold_ends_at_root (H : Poseidon) (t : SparseMerkleTree) :
  leaves t <> [] ->
  wf_level TREE_DEPTH (leaves t) ->
  exists final root,
    rootLevels t (Some H) = Ok final
    /\ JsMap.get "0" final = Some root
    /\ getRoot t (Some H) = Ok (root, t)
    /\ (ladder_ok H (defaultHashes t) ->
        root = subtree H (node (leaves t) 0) TREE_DEPTH 0).
Proof.
  intros Hne Hwf.
  destruct (rootLevels_run H t
              (fun _ cur => exists i, 0 <= i /\ lookup cur i <> None))
    as (final & E & Hwf0 & (i & Hi & Hl)).
  - rewrite copyLeaves_id by apply Hwf. exact Hwf.
  - rewrite copyLeaves_id by apply Hwf.
    destruct (leaves t) as [|[key v] m] eqn:El; [contradiction|].
    destruct (wf_level_lookup _ _ key v Hwf (or_introl eq_refl))
      as (i & _ & Hi & L).
    exists i. split; [lia | congruence].
  - intros l cur next _ _ (i & Hi & L) (_ & _ & Hnone).
    exists (i / 2). split; [apply Z.div_pos; lia|].
    intros Hn. destruct (Hnone (i / 2) ltac:(apply Z.div_pos; lia) Hn)
      as [L0 L1].
    destruct (Z.odd i) eqn:Ho.
    + pose proof (odd_child i Ho) as Ei. rewrite <- Ei in L1. contradiction.
    + pose proof (even_child i Ho) as Ei. rewrite <- Ei in L0. contradiction.
  - destruct (lookup final i) as [root|] eqn:L; [|contradiction].
    destruct (wf_level_lookup _ _ _ _ Hwf0 (lookup_In _ _ _ L))
      as (i' & Ek & Hi' & _).
    assert (i' = 0) by (simpl in Hi'; lia). subst i'.
    unfold lookup in L. rewrite Ek in L. change (toString 0) with "0" in L.
    assert (Eroot : getRoot t (Some H) = Ok (root, t)).
    { unfold getRoot.
      replace (JsMap.size (leaves t) =? 0)%nat with false
        by (destruct (leaves t); [contradiction | reflexivity]).
      unfold bind. rewrite E, L. reflexivity. }
    exists final, root. split; [exact E|]. split; [exact L|].
    split; [exact Eroot|].
    intros Hd. pose proof (getRoot_subtree H t Hd Hwf) as Es.
    congruence.
Qed.

Lemma C8_fold_ends_at_root_witness :
  exists final root,
    rootLevels engine_A (Some mock_hash) = Ok final
    /\ JsMap.get "0" final = Some root
    /\ getRoot engine_A (Some mock_hash) = Ok (root, engine_A)
    /\ root = subtree mock_hash (node (leaves engine_A) 0) TREE_DEPTH 0
    /\ root <> array_get (defaultHashes engine_A) TREE_DEPTH.
Proof.
  assert (B : built_by mock_hash [(identity_A, 1)] engine_A)
    by (apply engine_of_built_by; vm_compute; reflexivity).
  destruct (built_by_inv mock_hash mock_hash_range _ _ B)
    as (Hd & Hwf & _ & _).
  destruct (C8_fold_ends_at_root mock_hash engine_A
              ltac:(discriminate) Hwf)
    as (final & root & E & L & Eroot & Hpin).
  exists final, root. split; [exact E|]. split; [exact L|].
  split; [exact Eroot|]. split; [exact (Hpin Hd)|].
  assert (Er : getRoot engine_A (Some mock_hash) = Ok (15598, engine_A))
    by (vm_compute; reflexivity).
  rewrite Eroot in Er. injection Er as ->. vm_compute. discriminate.
Defined.

(* ------------------------------------------------------------------------- *)
(** ** Calls made before [initPoseidon] *)

Lemma for_range_first_throw {St} (body : nat -> St -> M St) inst e
  start count s :
  body start s inst = Throw e ->
  for_range start (S count) body s inst = Throw e.
Proof.
  intros Hb. cbn [for_range]. unfold bind. now rewrite Hb.
Qed.

Lemma constructor_uninitialized :
  constructor None = Throw PoseidonNotInitialized.
Proof.
  unfold constructor, bind, TREE_DEPTH.
  now rewrite (for_range_first_throw _ None PoseidonNotInitialized).
Qed.

Lemma pubkeyToIndex_None_throws pubkey :
  exists e, pubkeyToIndex pubkey None = Throw e.
Proof.
  destruct (Nat.lt_ge_cases (List.length pubkey) 32) as [Hs|Hs].
  - eexists. now apply pubkeyToIndex_short.
  - eexists. now apply pubkeyToIndex_uninitialized.
Qed.

Lemma copyLeaves_nonempty this :
  leaves this <> [] -> copyLeaves this <> [].
Proof.
  unfold copyLeaves, JsMap.entries, JsMap.empty.
  destruct (leaves this) as [|[k v] m]; [contradiction|]. intros _.
  cbn [fold_left].
  assert (Hne : JsMap.set k v [] <> []) by discriminate.
  revert Hne. generalize (JsMap.set k v []).
  induction m as [|[k' v'] m IH]; intros acc Hacc; cbn [fold_left].
  - exact Hacc.
  - apply IH. destruct acc as [|[k0 v0] acc]; simpl; [discriminate|].
    destruct (k' =? k0)%string; discriminate.
Qed.

Lemma rootLevels_uninitialized this :
  leaves this <> [] -> exists e, rootLevels this None = Throw e.
Proof.
  intros Hne. apply copyLeaves_nonempty in Hne.
  unfold rootLevels, TREE_DEPTH.
  destruct (copyLeaves this) as [|[key v] m] eqn:Ec; [contradiction|].
  destruct (BigInt_of_string key) as [index|e] eqn:Eb.
  - exists PoseidonNotInitialized. apply for_range_first_throw.
    unfold JsMap.entries. cbn [for_of]. unfold bind at 1.
    unfold rootLevelEntry, bind, lift. rewrite Eb.
    destruct (Z.land index 1 =? 1); reflexivity.
  - exists e. apply for_range_first_throw.
    unfold JsMap.entries. cbn [for_of]. unfold bind at 1.
    unfold rootLevelEntry, bind, lift. now rewrite Eb.
Qed.

Lemma reachable_uninitialized buildPoseidon w :
  reachable buildPoseidon w ->
  poseidonInstance w = None -> engines w = [].
Proof.
  induction 1 as [|w c w' r R IH E|w k w' R IH E]; intros Hnone;
    [reflexivity| |].
  2:{ unfold resume in E. destruct (nth_error (suspended w) k);
        [|discriminate].
      injection E as <-. discriminate. }
  assert (Hmethod : forall A engine (m : method A) wrap,
             call_method w engine m wrap = Some (w', r) -> engines w' = []).
  { intros A engine m wrap Ec. unfold call_method in Ec.
    destruct (nth_error (engines w) engine) as [this|] eqn:En;
      [|discriminate].
    destruct (m this (poseidonInstance w)) as [[a this']|e];
      injection Ec as <- _; cbn [poseidonInstance] in Hnone;
      rewrite (IH Hnone) in En; destruct engine; discriminate. }
  destruct c; cbn [exec] in E; try (eapply Hmethod; eassumption).
  - injection E as <- _.
    destruct (initPoseidon (poseidonInstance w)); auto.
  - injection E as <- _. auto.
  - injection E as <- _. auto.
  - destruct (poseidonInstance w) as [p|] eqn:Ep.
    + destruct (constructor (Some p)); injection E as <- _;
        cbn [poseidonInstance] in Hnone; congruence.
    + rewrite constructor_uninitialized in E. injection E as <- _. auto.
Qed.

(** C9: before [initPoseidon] has run, every call into the module other
    than [initPoseidon] itself throws and changes nothing: the constructor
    and the exported hash functions throw "Poseidon not initialized", and
    since no engine can have been constructed there is no object to call
    a method on.  On any engine value, [insert], [get], [isBlacklisted]
    and [getMerkleProof] throw without a hasher, and so does [getRoot]
    whenever it has leaves to hash. *)
Theorem C9_uninitialized_hasher (buildPoseidon : nat -> Poseidon) :
  (forall w c out,
      reachable buildPoseidon w ->
      poseidonInstance w = None ->
      c <> Call_initPoseidon ->
      exec buildPoseidon w c = Some out ->
      fst out = w /\ is_throw (snd out) = true)
  /\ constructor None = Throw PoseidonNotInitialized
  /\ (forall l r, poseidonHash2 l r None = Throw PoseidonNotInitialized)
  /\ forall this pubkey value,
      is_throw (insert pubkey value this None) = true
      /\ is_throw (get pubkey this None) = true
      /\ is_throw (isBlacklisted pubkey this None) = true
      /\ is_throw (getMerkleProof pubkey this None) = true
      /\ (leaves this <> [] -> is_throw (getRoot this None) = true).
Proof.
  split; [|split; [exact constructor_uninitialized|split; [reflexivity|]]].
  - intros w c [w' r] R Hnone Hc E.
    pose proof (reachable_uninitialized _ _ R Hnone) as Hno.
    assert (Hmethod : forall A engine (m : method A) wrap,
               call_method w engine m wrap <> Some (w', r)).
    { intros A engine m wrap. unfold call_method. rewrite Hno.
      destruct engine; discriminate. }
    destruct c; cbn [exec] in E;
      try (exfalso; eapply Hmethod; eassumption).
    + contradiction.
    + rewrite Hnone in E. injection E as <- <-. split; reflexivity.
    + rewrite Hnone in E.
      destruct (pubkeyToIndex_None_throws pubkey) as (e & Ee).
      rewrite Ee in E. injection E as <- <-. split; reflexivity.
    + rewrite Hnone, constructor_uninitialized in E.
      injection E as <- <-. split; reflexivity.
  - intros this pubkey value.
    destruct (pubkeyToIndex_None_throws pubkey) as (e & Ee).
    unfold insert, isBlacklisted, get, getMerkleProof, bind. rewrite Ee.
    repeat (split; [reflexivity|]).
    intros Hne. destruct (rootLevels_uninitialized this Hne) as (e' & Er).
    unfold getRoot.
    replace (JsMap.size (leaves this) =? 0)%nat with false
      by (destruct (leaves this); [contradiction | reflexivity]).
    unfold bind. now rewrite Er.
Qed.

Lemma C9_uninitialized_hasher_witness :
  fst (initial_world, @Throw value PoseidonNotInitialized) = initial_world
  /\ is_throw (snd (initial_world, @Throw value PoseidonNotInitialized))
     = true.
Proof.
  apply (proj1 (C9_uninitialized_hasher (fun _ => mock_hash))
           initial_world Call_new).
  - apply reachable_initial.
  - reflexivity.
  - discriminate.
  - vm_compute. reflexivity.
Defined.

(* ------------------------------------------------------------------------- *)
(** ** Hexadecimal output *)

Lemma digit_char_lower_hex d :
  0 <= d < 16 ->
  lower_hex_digit (digit_char d) = Some d /\ is_lower_hex (digit_char d).
Proof.
  intros Hd.
  assert (Hn : exists n, d = Z.of_nat n /\ (n < 16)%nat).
  { exists (Z.to_nat d). lia. }
  destruct Hn as (n & -> & Hn).
  unfold digit_char. rewrite Nat2Z.id.
  do 16 (destruct n as [|n];
         [split; [reflexivity | unfold is_lower_hex; simpl; tauto]|]).
  lia.
Qed.

Lemma big_endian_hex_of_parse s : forall acc x,
  Forall (fun c => exists d, 0 <= d < 16 /\ c = digit_char d)
         (list_ascii_of_string s) ->
  parse_digits 16 s acc = Some x ->
  Forall is_lower_hex (list_ascii_of_string s)
  /\ exists r, big_endian_hex s = Some r
               /\ x = acc * 16 ^ Z.of_nat (String.length s) + r.
Proof.
  induction s as [|c s IH]; intros acc x Hc Hp.
  - simpl in *. injection Hp as <-. split; [constructor|].
    exists 0. split; [reflexivity | lia].
  - cbn [list_ascii_of_string] in Hc.
    inversion Hc as [|? ? (d & Hd & ->) Hc']; subst.
    cbn [parse_digits] in Hp.
    rewrite (digit_value_char 16 ltac:(lia) d Hd) in Hp.
    destruct (IH _ _ Hc' Hp) as (Hhex & r & Er & Ex).
    destruct (digit_char_lower_hex d Hd) as [El Hl].
    split; [constructor; assumption|].
    exists (d * 16 ^ Z.of_nat (String.length s) + r).
    cbn [big_endian_hex String.length]. rewrite El, Er.
    split; [reflexivity|].
    rewrite Ex, Nat2Z.inj_succ, Z.pow_succ_r by lia. ring.
Qed.

Lemma pad_zero_spec n : forall cur s,
  cur = "0" \/ cur = "" ->
  String.length (pad_fill n "0" cur ++ s) = (n + String.length s)%nat
  /\ big_endian_hex (pad_fill n "0" cur ++ s) = big_endian_hex s
  /\ (Forall is_lower_hex (list_ascii_of_string s) ->
      Forall is_lower_hex (list_ascii_of_string (pad_fill n "0" cur ++ s))).
Proof.
  induction n as [|n IH]; intros cur s Hcur.
  - simpl. repeat split. auto.
  - assert (E : exists cur', (cur' = "0" \/ cur' = "")
                  /\ pad_fill (S n) "0" cur
                     = String "0"%char (pad_fill n "0" cur')).
    { destruct Hcur as [->| ->]; eexists; (split; [|reflexivity]); auto. }
    destruct E as (cur' & Hcur' & ->).
    destruct (IH cur' s Hcur') as (Hlen & Hval & Hhex).
    cbn [append String.length big_endian_hex list_ascii_of_string].
    rewrite Hlen, Hval. split; [reflexivity|]. split.
    + change (lower_hex_digit "0"%char) with (Some 0).
      destruct (big_endian_hex s); [f_equal; lia | reflexivity].
    + intros Hs. constructor; [|now apply Hhex].
      unfold is_lower_hex. simpl. tauto.
Qed.

(** C10: for a field element [f] with [0 <= f < 2 ^ 254], [fieldToHex f]
    is "0x" followed by exactly 64 lowercase hexadecimal characters whose
    big-endian value is [f], that is, the hexadecimal numeral of [f] padded
    with zeros on the left. *)
Theorem C10_fieldToHex (f : Z) :
  0 <= f < 2 ^ 254 ->
  exists body,
    fieldToHex f = "0x" ++ body
    /\ String.length body = 64%nat
    /\ Forall is_lower_hex (list_ascii_of_string body)
    /\ big_endian_hex body = Some f.
Proof.
  intros Hf.
  exists (padStart 64 "0" (toString_radix 16 f)).
  split; [reflexivity|].
  assert (Es : toString_radix 16 f = digits 16 f).
  { unfold toString_radix. destruct (Z.ltb_spec f 0); [lia | reflexivity]. }
  rewrite Es. set (s := digits 16 f).
  assert (Hlen : (String.length s <= 64)%nat).
  { apply (digits_fuel_length 16 ltac:(lia)); [lia|].
    assert (2 ^ 254 < 16 ^ Z.of_nat 64) by reflexivity. lia. }
  assert (Hparse : parse_digits 16 s 0 = Some f)
    by (apply parse_digits_digits; lia).
  assert (Hchars : Forall (fun c => exists d, 0 <= d < 16 /\ c = digit_char d)
                     (list_ascii_of_string s)).
  { apply digits_fuel_chars; [lia | lia | constructor]. }
  destruct (big_endian_hex_of_parse s 0 f Hchars Hparse)
    as (Hhex & r & Er & Ex).
  assert (r = f) by lia. subst r.
  unfold padStart.
  destruct (pad_zero_spec (64 - String.length s) "0" s (or_introl eq_refl))
    as (Hl & Hv & Hh).
  split; [rewrite Hl; lia|]. split; [now apply Hh|].
  now rewrite Hv.
Qed.

Lemma C10_fieldToHex_witness :
  exists body,
    fieldToHex 255 = "0x" ++ body
    /\ String.length body = 64%nat
    /\ Forall is_lower_hex (list_ascii_of_string body)
    /\ big_endian_hex body = Some 255.
Proof.
  apply (C10_fieldToHex 255). split; [lia | reflexivity].
Defined.

(* ========================================================================= *)
(** * Further properties of the engine *)

(** The subtree at [q] depends only on the leaves below it. *)
Lemma subtree_local (H : Poseidon) f g l : forall q,
  (forall i, q * 2 ^ Z.of_nat l <= i < (q + 1) * 2 ^ Z.of_nat l ->
             f i = g i) ->
  subtree H f l q = subtree H g l q.
Proof.
  induction l as [|l IH]; intros q Hfg; cbn [subtree].
  - apply Hfg. change (2 ^ Z.of_nat 0) with 1. lia.
  - assert (Hp : 2 ^ Z.of_nat (S l) = 2 * 2 ^ Z.of_nat l).
    { rewrite Nat2Z.inj_succ, Z.pow_succ_r by lia. reflexivity. }
    assert (0 < 2 ^ Z.of_nat l) by (apply Z.pow_pos_nonneg; lia).
    rewrite Hp in Hfg.
    rewrite (IH (2 * q)), (IH (2 * q + 1)); [reflexivity| |];
      intros i Hi; apply Hfg; nia.
Qed.

(** Setting the leaf at [index] changes the leaf assignment there only. *)
Lemma node_set_other (m : JsMap.t) index v i :
  0 <= index -> 0 <= i -> i <> index ->
  node (JsMap.set (toString index) v m) 0 i = node m 0 i.
Proof.
  intros Hidx Hi Hne. unfold node, lookup.
  rewrite jsmap_get_set_other; [reflexivity|].
  intros E. apply toString_inj in E; lia.
Qed.

Lemma node_set_same (m : JsMap.t) index v :
  node (JsMap.set (toString index) v m) 0 index = v.
Proof.
  unfold node, lookup. now rewrite jsmap_get_set_same.
Qed.

(** The siblings [getMerkleProof] returns, one by one. *)
Lemma getMerkleProof_path (H : Poseidon) pubkey t :
  (forall a b, 0 <= H a b < 2 ^ 254) ->
  ladder_ok H (defaultHashes t) ->
  wf_level TREE_DEPTH (leaves t) ->
  (32 <= List.length pubkey)%nat ->
  exists sibs,
    getMerkleProof pubkey t (Some H)
    = Ok ({| siblings := sibs;
             leafValue := node (leaves t) 0 (index_of H pubkey) |}, t)
    /\ List.length sibs = TREE_DEPTH
    /\ forall j, (j < TREE_DEPTH)%nat ->
         nth j sibs 0
         = subtree H (node (leaves t) 0) j
             (sibling_of (Z.shiftr (index_of H pubkey) (Z.of_nat j))).
Proof.
  intros H_range Hd Hwf Hlen. pose proof Hd as (_ & H0 & Hl).
  set (index := index_of H pubkey).
  assert (Hidx : 0 <= index < 2 ^ 254) by apply H_range.
  set (f0 := node (leaves t) 0).
  destruct (getPathBits_spec index) as [_ Hbits].
  destruct (proofLevels_run H t (getPathBits index)
              (fun l sibs cur =>
                 List.length sibs = l
                 /\ (forall j, (j < l)%nat ->
                        nth j sibs 0
                        = subtree H f0 j
                            (sibling_of (Z.shiftr index (Z.of_nat j))))
                 /\ forall q, 0 <= q < 2 ^ Z.of_nat (TREE_DEPTH - l) ->
                              node cur (array_get (defaultHashes t) l) q
                              = subtree H f0 l q))
    as (sibs & final & E & Hn & Hs & _).
  - rewrite copyLeaves_id by apply Hwf. exact Hwf.
  - split; [reflexivity|]. split; [intros j Hj; lia|].
    intros q _. rewrite copyLeaves_id by apply Hwf. now rewrite H0.
  - intros l sibs cur next Hlt Hw (Hn & Hs & Hc) Hstep.
    assert (Hk : (TREE_DEPTH - l = S (TREE_DEPTH - S l))%nat) by lia.
    split; [|split].
    + rewrite length_app. simpl. lia.
    + intros j Hj. destruct (Nat.eq_dec j l) as [->|N].
      * rewrite <- Hn at 1. rewrite nth_middle.
        unfold recorded.
        rewrite (posAtLevel_spec _ index) by (assumption || lia).
        rewrite Hbits by assumption.
        rewrite testbit_shiftr_odd by lia.
        fold (sibling_of (Z.shiftr index (Z.of_nat l))).
        apply Hc. rewrite Hk. apply sibling_of_range.
        rewrite <- Hk. apply shiftr_range; [lia | assumption].
      * rewrite app_nth1 by lia. apply Hs. lia.
    + intros q Hq.
      apply (level_step_subtree H _ (array_get (defaultHashes t) l) _
               (TREE_DEPTH - S l) l cur next); try assumption.
      * rewrite (Hl (S l)) by (unfold TREE_DEPTH in Hlt; lia).
        now replace (S l - 1)%nat with l by lia.
      * rewrite <- Hk. exact Hc.
  - exists sibs. split; [|split; [exact Hn | exact Hs]].
    unfold getMerkleProof, bind.
    rewrite pubkeyToIndex_ok by assumption.
    fold (index_of H pubkey). fold index. rewrite E. reflexivity.
Qed.

Lemma get_spec (H : Poseidon) pubkey t :
  (32 <= List.length pubkey)%nat ->
  get pubkey t (Some H) = Ok (node (leaves t) 0 (index_of H pubkey), t).
Proof.
  intros Hlen. unfold get, bind.
  now rewrite pubkeyToIndex_ok by assumption.
Qed.

(** [get] returns only for an array of at least 32 elements. *)
Lemma get_returns_length pubkey t inst r :
  get pubkey t inst = Ok r -> (32 <= List.length pubkey)%nat.
Proof.
  intros E. destruct (Nat.lt_ge_cases (List.length pubkey) 32) as [Hs|Hs];
    [|exact Hs].
  unfold get, bind in E. rewrite pubkeyToIndex_short in E by exact Hs.
  discriminate.
Qed.

(** X1: in every engine state reached by insertions, and for every
    identity of at least 32 bytes, [getMerkleProof] returns as [leafValue]
    the value [get] returns, and its 254 siblings fold with that value,
    along the bits of the leaf index, to the root [getRoot] returns. *)
Theorem proof_verifies_in_every_state (H : Poseidon) history t X :
  (forall a b, 0 <= H a b < 2 ^ 254) ->
  built_by H history t ->
  (32 <= List.length X)%nat ->
  exists index sibs root v,
    pubkeyToIndex X (Some H) = Ok index
    /\ get X t (Some H) = Ok (v, t)
    /\ getMerkleProof X t (Some H)
       = Ok ({| siblings := sibs; leafValue := v |}, t)
    /\ List.length sibs = 254%nat
    /\ getRoot t (Some H) = Ok (root, t)
    /\ fold_siblings H index 0 v sibs = root.
Proof.
  intros H_range B Hlen.
  destruct (built_by_inv H H_range history t B) as (Hd & Hwf & _ & _).
  destruct (getMerkleProof_subtree H H_range X t Hd Hwf Hlen)
    as (sibs & E & Hn & Hfold).
  exists (index_of H X), sibs,
    (subtree H (node (leaves t) 0) TREE_DEPTH 0),
    (node (leaves t) 0 (index_of H X)).
  split; [now apply pubkeyToIndex_ok|].
  split; [now apply get_spec|].
  split; [exact E|]. split; [exact Hn|].
  split; [now apply getRoot_subtree | exact Hfold].
Qed.

Lemma proof_verifies_in_every_state_witness :
  exists index sibs root v,
    pubkeyToIndex (identity_A ++ [9; 9])%list (Some mock_hash) = Ok index
    /\ get (identity_A ++ [9; 9])%list engine_AB (Some mock_hash)
       = Ok (v, engine_AB)
    /\ getMerkleProof (identity_A ++ [9; 9])%list engine_AB (Some mock_hash)
       = Ok ({| siblings := sibs; leafValue := v |}, engine_AB)
    /\ List.length sibs = 254%nat
    /\ getRoot engine_AB (Some mock_hash) = Ok (root, engine_AB)
    /\ fold_siblings mock_hash index 0 v sibs = root.
Proof.
  apply (proof_verifies_in_every_state mock_hash
           [(identity_A, 1); (identity_B, 1)]).
  - exact mock_hash_range.
  - apply engine_of_built_by. vm_compute. reflexivity.
  - simpl. lia.
Defined.

(** X2: re-inserting an identity with value 0 undoes its blacklisting.  On
    an engine built by insertions, if [get(X)] is 0, then after
    [insert(X, v)] followed by [insert(X, 0)] the root is the one the
    engine had before and [isBlacklisted(X)] is false, although the leaf
    map now holds an explicit entry 0 for [X]. *)
Theorem zero_leaf_restores_root (H : Poseidon) history t X v :
  (forall a b, 0 <= H a b < 2 ^ 254) ->
  built_by H history t ->
  get X t (Some H) = Ok (0, t) ->
  exists t1 t2 index root,
    insert X (Some v) t (Some H) = Ok (tt, t1)
    /\ insert X (Some 0) t1 (Some H) = Ok (tt, t2)
    /\ pubkeyToIndex X (Some H) = Ok index
    /\ getRoot t (Some H) = Ok (root, t)
    /\ getRoot t2 (Some H) = Ok (root, t2)
    /\ isBlacklisted X t2 (Some H) = Ok (false, t2)
    /\ JsMap.get (toString index) (leaves t2) = Some 0.
Proof.
  intros H_range B Hget.
  pose proof (get_returns_length _ _ _ _ Hget) as Hlen.
  rewrite get_spec in Hget by lia. injection Hget as Hzero.
  pose proof (insert_spec H X v t ltac:(lia)) as E1.
  set (k := toString (index_of H X)) in *.
  set (t1 := {| leaves := JsMap.set k v (leaves t);
                defaultHashes := defaultHashes t |}) in *.
  pose proof (insert_spec H X 0 t1 ltac:(lia)) as E2.
  fold k in E2. cbn [leaves defaultHashes t1] in E2.
  set (t2 := {| leaves := JsMap.set k 0 (JsMap.set k v (leaves t));
                defaultHashes := defaultHashes t |}) in *.
  assert (B1 : built_by H (history ++ [(X, v)])%list t1)
    by (eapply built_insert; eassumption).
  assert (B2 : built_by H ((history ++ [(X, v)]) ++ [(X, 0)])%list t2)
    by (eapply built_insert; eassumption).
  destruct (built_by_inv H H_range _ t B) as (Hd & Hwf & _ & _).
  destruct (built_by_inv H H_range _ t2 B2) as (Hd2 & Hwf2 & _ & _).
  assert (Hidx : 0 <= index_of H X) by apply H_range.
  exists t1, t2, (index_of H X),
    (subtree H (node (leaves t) 0) TREE_DEPTH 0).
  split; [exact E1|]. split; [exact E2|].
  split; [apply pubkeyToIndex_ok; lia|].
  split; [now apply getRoot_subtree|].
  split; [|split].
  - rewrite (getRoot_subtree H t2 Hd2 Hwf2). do 2 f_equal.
    apply subtree_local. intros i Hi. cbn [leaves t2].
    rewrite jsmap_set_set. fold k.
    destruct (Z.eq_dec i (index_of H X)) as [->|Hne].
    + unfold k. now rewrite node_set_same.
    + unfold k. apply node_set_other; lia.
  - unfold isBlacklisted, bind. rewrite get_spec by lia.
    cbn [leaves t2]. unfold k. rewrite node_set_same. reflexivity.
  - cbn [leaves t2]. apply jsmap_get_set_same.
Qed.

Lemma zero_leaf_restores_root_witness :
  exists t1 t2 index root,
    insert identity_C (Some 1) engine_AB (Some mock_hash) = Ok (tt, t1)
    /\ insert identity_C (Some 0) t1 (Some mock_hash) = Ok (tt, t2)
    /\ pubkeyToIndex identity_C (Some mock_hash) = Ok index
    /\ getRoot engine_AB (Some mock_hash) = Ok (root, engine_AB)
    /\ getRoot t2 (Some mock_hash) = Ok (root, t2)
    /\ isBlacklisted identity_C t2 (Some mock_hash) = Ok (false, t2)
    /\ JsMap.get (toString index) (leaves t2) = Some 0.
Proof.
  apply (zero_leaf_restores_root mock_hash
           [(identity_A, 1); (identity_B, 1)] engine_AB identity_C 1).
  - exact mock_hash_range.
  - apply engine_of_built_by. vm_compute. reflexivity.
  - vm_compute. reflexivity.
Defined.

Lemma div_pow2_bounds index j :
  0 <= index -> 0 <= j ->
  (index / 2 ^ j) * 2 ^ j <= index < (index / 2 ^ j + 1) * 2 ^ j.
Proof.
  intros Hi Hj.
  assert (0 < 2 ^ j) by (apply Z.pow_pos_nonneg; lia).
  pose proof (Z.div_mod index (2 ^ j) ltac:(lia)).
  pose proof (Z.mod_pos_bound index (2 ^ j) ltac:(lia)). nia.
Qed.

Lemma sibling_of_nonneg p : 0 <= p -> 0 <= sibling_of p /\ sibling_of p <> p.
Proof.
  intros Hp. unfold sibling_of. destruct (Z.odd p) eqn:Ho; [|lia].
  pose proof (odd_child p Ho). pose proof (Z.div_pos p 2 Hp ltac:(lia)). lia.
Qed.

(** X3: the siblings on the path of an identity do not depend on the value
    stored for that identity.  On an engine built by insertions and for
    an identity [X] of at least 32 bytes, [getMerkleProof(X)] returns the
    same 254 siblings before and after [insert(X, v)]; only [leafValue]
    changes, from the value [get(X)] returned to [v]. *)
Theorem own_leaf_keeps_siblings (H : Poseidon) history t X v :
  (forall a b, 0 <= H a b < 2 ^ 254) ->
  built_by H history t ->
  (32 <= List.length X)%nat ->
  exists t' sibs leaf,
    insert X (Some v) t (Some H) = Ok (tt, t')
    /\ get X t (Some H) = Ok (leaf, t)
    /\ getMerkleProof X t (Some H)
       = Ok ({| siblings := sibs; leafValue := leaf |}, t)
    /\ getMerkleProof X t' (Some H)
       = Ok ({| siblings := sibs; leafValue := v |}, t')
    /\ List.length sibs = 254%nat.
Proof.
  intros H_range B Hlen.
  pose proof (insert_spec H X v t ltac:(lia)) as E1.
  set (index := index_of H X) in *.
  set (t' := {| leaves := JsMap.set (toString index) v (leaves t);
                defaultHashes := defaultHashes t |}) in *.
  assert (B' : built_by H (history ++ [(X, v)])%list t')
    by (eapply built_insert; eassumption).
  destruct (built_by_inv H H_range _ t B) as (Hd & Hwf & _ & _).
  destruct (built_by_inv H H_range _ t' B') as (Hd' & Hwf' & _ & _).
  assert (Hidx : 0 <= index < 2 ^ 254) by apply H_range.
  destruct (getMerkleProof_path H X t H_range Hd Hwf ltac:(lia))
    as (sibs & E & Hn & Hs).
  destruct (getMerkleProof_path H X t' H_range Hd' Hwf' ltac:(lia))
    as (sibs' & E' & Hn' & Hs').
  fold index in E, E', Hs, Hs'.
  assert (Esibs : sibs' = sibs).
  { apply (nth_ext _ _ 0 0); [congruence|].
    intros j Hj. rewrite Hn' in Hj. rewrite Hs, Hs' by assumption.
    apply subtree_local. intros i Hi. cbn [leaves t'].
    rewrite Z.shiftr_div_pow2 in Hi by lia.
    pose proof (div_pow2_bounds index (Z.of_nat j) ltac:(lia) ltac:(lia)).
    assert (Hq : 0 <= index / 2 ^ Z.of_nat j).
    { apply Z.div_pos; [lia|]. apply Z.pow_pos_nonneg; lia. }
    destruct (sibling_of_nonneg _ Hq) as [Hs0 Hs1].
    assert (0 < 2 ^ Z.of_nat j) by (apply Z.pow_pos_nonneg; lia).
    apply node_set_other; nia. }
  exists t', sibs, (node (leaves t) 0 index).
  split; [exact E1|]. split; [now apply get_spec|]. split; [exact E|].
  split; [|exact Hn].
  rewrite E', Esibs. cbn [leaves t']. now rewrite node_set_same.
Qed.

Lemma own_leaf_keeps_siblings_witness :
  exists t' sibs leaf,
    insert (repeat 3 33) (Some 5) engine_AB (Some mock_hash) = Ok (tt, t')
    /\ get (repeat 3 33) engine_AB (Some mock_hash) = Ok (leaf, engine_AB)
    /\ getMerkleProof (repeat 3 33) engine_AB (Some mock_hash)
       = Ok ({| siblings := sibs; leafValue := leaf |}, engine_AB)
    /\ getMerkleProof (repeat 3 33) t' (Some mock_hash)
       = Ok ({| siblings := sibs; leafValue := 5 |}, t')
    /\ List.length sibs = 254%nat.
Proof.
  apply (own_leaf_keeps_siblings mock_hash
           [(identity_A, 1); (identity_B, 1)] engine_AB (repeat 3 33) 5).
  - exact mock_hash_range.
  - apply engine_of_built_by. vm_compute. reflexivity.
  - rewrite repeat_length. lia.
Defined.

(** X4: on a freshly constructed engine the proof of any identity of at
    least 32 bytes has [leafValue = 0] and, as siblings, the default
    hashes [D[0], ..., D[253]] in this order. *)
Theorem fresh_engine_proof_is_the_ladder (H : Poseidon) X :
  (forall a b, 0 <= H a b < 2 ^ 254) ->
  (32 <= List.length X)%nat ->
  exists t,
    constructor (Some H) = Ok t
    /\ getMerkleProof X t (Some H)
       = Ok ({| siblings := firstn 254 (defaultHashes t); leafValue := 0 |},
             t).
Proof.
  intros H_range Hlen.
  destruct (constructor_spec H) as (t & E & Hl & Hd).
  exists t. split; [exact E|].
  assert (Hwf : wf_level TREE_DEPTH (leaves t)).
  { rewrite Hl. split; [constructor | intros key []]. }
  destruct (getMerkleProof_path H X t H_range Hd Hwf Hlen)
    as (sibs & Ep & Hn & Hs).
  rewrite Ep. rewrite Hl in *.
  assert (Esibs : sibs = firstn 254 (defaultHashes t)).
  { destruct Hd as (Hlen255 & Hd0).
    apply (nth_ext _ _ 0 0).
    - rewrite length_firstn, Hlen255, Hn. reflexivity.
    - intros j Hj. rewrite Hn in Hj. rewrite Hs by assumption.
      rewrite (subtree_default H (defaultHashes t));
        [| split; assumption | reflexivity | unfold TREE_DEPTH in Hj; lia].
      unfold array_get. rewrite nth_firstn.
      unfold TREE_DEPTH in Hj.
      destruct (Nat.ltb_spec j 254); [reflexivity | lia]. }
  rewrite Esibs. reflexivity.
Qed.

Lemma fresh_engine_proof_is_the_ladder_witness :
  exists t,
    constructor (Some mock_hash) = Ok t
    /\ getMerkleProof identity_C t (Some mock_hash)
       = Ok ({| siblings := firstn 254 (defaultHashes t); leafValue := 0 |},
             t).
Proof.
  apply (fresh_engine_proof_is_the_ladder mock_hash identity_C).
  - exact mock_hash_range.
  - simpl. lia.
Defined.

Lemma last_inserted_snoc H history pubkey value index :
  last_inserted H (history ++ [(pubkey, value)])%list index
  = if index_of H pubkey =? index then Some value
    else last_inserted H history index.
Proof.
  induction history as [|[pk v] history IH]; cbn [app last_inserted].
  - reflexivity.
  - rewrite IH. destruct (index_of H pubkey =? index); reflexivity.
Qed.

(** X5: the last write wins, per leaf index.  On an engine built by a
    sequence of insertions, [get(X)] returns the value of the most recent
    insertion whose identity has the leaf index of [X] (be it [X] itself
    or a colliding identity), and 0 when there is none; [isBlacklisted(X)]
    is true exactly when that value is not 0. *)
Theorem get_returns_last_insertion (H : Poseidon) history t X :
  (forall a b, 0 <= H a b < 2 ^ 254) ->
  built_by H history t ->
  (32 <= List.length X)%nat ->
  get X t (Some H)
  = Ok (last_inserted H history (index_of H X) ?? 0, t)
  /\ isBlacklisted X t (Some H)
     = Ok (negb (last_inserted H history (index_of H X) ?? 0 =? 0), t)
  /\ pubkeyToIndex X (Some H) = Ok (index_of H X).
Proof.
  intros H_range B Hlen.
  assert (Hlk : lookup (leaves t) (index_of H X)
                = last_inserted H history (index_of H X)).
  { clear Hlen. induction B as [t E|history t pubkey value t' B IH E].
    - destruct (constructor_spec H) as (t0 & E0 & Hl & _).
      rewrite E0 in E. injection E as <-. now rewrite Hl.
    - apply insert_inv in E. destruct E as [_ ->]. cbn [leaves].
      rewrite last_inserted_snoc. unfold lookup.
      destruct (Z.eqb_spec (index_of H pubkey) (index_of H X)) as [Ei|Ne].
      + rewrite Ei. apply jsmap_get_set_same.
      + rewrite jsmap_get_set_other; [exact IH|].
        intros Es. apply toString_inj in Es; try apply H_range.
        contradiction. }
  assert (Eget : get X t (Some H)
                 = Ok (last_inserted H history (index_of H X) ?? 0, t)).
  { rewrite get_spec by assumption. unfold node. now rewrite Hlk. }
  split; [exact Eget|]. split; [|now apply pubkeyToIndex_ok].
  unfold isBlacklisted, bind. now rewrite Eget.
Qed.

Lemma get_returns_last_insertion_witness :
  get identity_P engine_Q (Some mock_hash)
  = Ok (last_inserted mock_hash [(identity_Q, 1)]
          (index_of mock_hash identity_P) ?? 0, engine_Q)
  /\ isBlacklisted identity_P engine_Q (Some mock_hash)
     = Ok (negb (last_inserted mock_hash [(identity_Q, 1)]
                   (index_of mock_hash identity_P) ?? 0 =? 0), engine_Q)
  /\ pubkeyToIndex identity_P (Some mock_hash)
     = Ok (index_of mock_hash identity_P).
Proof.
  apply (get_returns_last_insertion mock_hash [(identity_Q, 1)]).
  - exact mock_hash_range.
  - apply engine_of_built_by. vm_compute. reflexivity.
  - simpl. lia.
Defined.

(** X6: insert and look up, on any engine object.  After
    [insert(X, value)] (an omitted value being 1), [get(X)] returns that
    value and [isBlacklisted(X)] tells whether it is not 0; the value read
    for an identity with another leaf index is what it was, and the
    default hashes are untouched. *)
Theorem insert_then_get (H : Poseidon) this X Y value :
  (forall a b, 0 <= H a b < 2 ^ 254) ->
  (32 <= List.length X)%nat ->
  (32 <= List.length Y)%nat ->
  exists this',
    insert X value this (Some H) = Ok (tt, this')
    /\ get X this' (Some H) = Ok (value ?? 1, this')
    /\ isBlacklisted X this' (Some H) = Ok (negb (value ?? 1 =? 0), this')
    /\ defaultHashes this' = defaultHashes this
    /\ (pubkeyToIndex Y (Some H) <> pubkeyToIndex X (Some H) ->
        exists w, get Y this (Some H) = Ok (w, this)
                  /\ get Y this' (Some H) = Ok (w, this')).
Proof.
  intros H_range HX HY.
  set (this' := {| leaves := JsMap.set (toString (index_of H X))
                               (value ?? 1) (leaves this);
                   defaultHashes := defaultHashes this |}).
  assert (Eins : insert X value this (Some H) = Ok (tt, this')).
  { unfold insert, bind. now rewrite pubkeyToIndex_ok by assumption. }
  assert (Eget : get X this' (Some H) = Ok (value ?? 1, this')).
  { rewrite get_spec by assumption. cbn [leaves this'].
    now rewrite node_set_same. }
  exists this'. split; [exact Eins|]. split; [exact Eget|].
  split; [unfold isBlacklisted, bind; now rewrite Eget|].
  split; [reflexivity|].
  intros Hne. rewrite !pubkeyToIndex_ok in Hne by assumption.
  exists (node (leaves this) 0 (index_of H Y)).
  rewrite !get_spec by assumption. split; [reflexivity|].
  cbn [leaves this']. rewrite node_set_other; try apply H_range;
    [reflexivity|].
  intros E. apply Hne. unfold index_of in E. now rewrite E.
Qed.

Lemma insert_then_get_witness :
  exists this',
    insert identity_A None engine_fresh (Some mock_hash) = Ok (tt, this')
    /\ get identity_A this' (Some mock_hash) = Ok (None ?? 1, this')
    /\ isBlacklisted identity_A this' (Some mock_hash)
       = Ok (negb (None ?? 1 =? 0), this')
    /\ defaultHashes this' = defaultHashes engine_fresh
    /\ (pubkeyToIndex identity_B (Some mock_hash)
        <> pubkeyToIndex identity_A (Some mock_hash) ->
        exists w, get identity_B engine_fresh (Some mock_hash)
                  = Ok (w, engine_fresh)
                  /\ get identity_B this' (Some mock_hash) = Ok (w, this')).
Proof.
  apply (insert_then_get mock_hash engine_fresh identity_A identity_B None).
  - exact mock_hash_range.
  - simpl. lia.
  - simpl. lia.
Defined.

(** X7: [getPathBits] yields exactly 254 bits, bit [i] of the index at
    position [i]; bits 254 and above are dropped, so an index and its
    residue modulo [2 ^ 254] have the same path, and the position
    [getMerkleProof] rebuilds from the path at a level is that residue
    shifted right by the level. *)
Theorem path_bits_are_the_low_254_bits (index : Z) :
  List.length (getPathBits index) = 254%nat
  /\ (forall i, (i < 254)%nat ->
                nth i (getPathBits index) false
                = Z.testbit index (Z.of_nat i))
  /\ getPathBits index = getPathBits (index mod 2 ^ 254)
  /\ forall level, (level <= 254)%nat ->
       posAtLevel (getPathBits index) level
       = Z.shiftr (index mod 2 ^ 254) (Z.of_nat level).
Proof.
  destruct (getPathBits_spec index) as [Hlen Hbits].
  destruct (getPathBits_spec (index mod 2 ^ 254)) as [Hlen' Hbits'].
  assert (Hlow : forall i, (i < TREE_DEPTH)%nat ->
            Z.testbit (index mod 2 ^ 254) (Z.of_nat i)
            = Z.testbit index (Z.of_nat i)).
  { intros i Hi. apply Z.mod_pow2_bits_low. unfold TREE_DEPTH in Hi. lia. }
  split; [exact Hlen|]. split; [exact Hbits|]. split.
  - apply (nth_ext _ _ false false); [congruence|].
    intros i Hi. rewrite Hlen in Hi.
    now rewrite Hbits, Hbits', Hlow by assumption.
  - intros level Hlevel.
    apply posAtLevel_spec.
    + change (Z.of_nat TREE_DEPTH) with 254.
      apply Z.mod_pos_bound. lia.
    + exact Hlevel.
    + intros i Hi. now rewrite Hbits, Hlow by assumption.
Qed.

Lemma path_bits_are_the_low_254_bits_witness :
  posAtLevel (getPathBits (2 ^ 254 + 5)) 1
  = Z.shiftr ((2 ^ 254 + 5) mod 2 ^ 254) (Z.of_nat 1).
Proof.
  apply (proj2 (proj2 (proj2 (path_bits_are_the_low_254_bits (2 ^ 254 + 5))))).
  lia.
Defined.

Lemma le_value_range bytes :
  Forall (fun b => 0 <= b < 256) bytes ->
  0 <= le_value bytes < 256 ^ Z.of_nat (List.length bytes).
Proof.
  induction 1 as [|b bytes Hb _ IH]; cbn [le_value List.length].
  - change (256 ^ Z.of_nat 0) with 1. lia.
  - rewrite Nat2Z.inj_succ, Z.pow_succ_r by lia. lia.
Qed.

Lemma le_bytes_le_value bytes :
  Forall (fun b => 0 <= b < 256) bytes ->
  le_bytes (List.length bytes) (le_value bytes) = bytes.
Proof.
  induction 1 as [|b bytes Hb Hall IH]; cbn [le_value List.length le_bytes].
  - reflexivity.
  - f_equal.
    + rewrite (Z.mul_comm 256), Z.mod_add by lia.
      apply Z.mod_small. exact Hb.
    + rewrite (Z.mul_comm 256), Z.div_add by lia.
      rewrite (Z.div_small b 256) by lia. rewrite Z.add_0_l. exact IH.
Qed.

Lemma Forall_firstn_skipn {A} (P : A -> Prop) l :
  Forall P l -> forall n m, Forall P (firstn n (skipn m l)).
Proof.
  intros Hall n m. apply Forall_forall. intros x Hx.
  assert (Hin : In x l).
  { rewrite <- (firstn_skipn m l). apply in_or_app. right.
    rewrite <- (firstn_skipn n (skipn m l)). apply in_or_app. now left. }
  clear Hx. revert x Hin. now apply Forall_forall.
Qed.

Lemma bytes16ToField_le_bytes (bytes : list Z) (start : nat) inst :
  Forall (fun b => 0 <= b < 256) (firstn 16 (skipn start bytes)) ->
  (start + 16 <= List.length bytes)%nat ->
  exists r,
    bytes16ToField bytes start inst = Ok r
    /\ 0 <= r < 2 ^ 128
    /\ le_bytes 16 r = firstn 16 (skipn start bytes).
Proof.
  intros Hall Hlen.
  exists (le_value (firstn 16 (skipn start bytes))).
  split; [now apply bytes16ToField_ok|].
  assert (Hl : List.length (firstn 16 (skipn start bytes)) = 16%nat).
  { rewrite length_firstn, length_skipn. lia. }
  pose proof Hall as Hall'.
  split.
  - pose proof (le_value_range _ Hall') as Hr. rewrite Hl in Hr.
    change (256 ^ Z.of_nat 16) with (2 ^ 128) in Hr. exact Hr.
  - rewrite <- Hl at 1. now apply le_bytes_le_value.
Qed.

(** X8: when the sixteen elements it reads lie inside the array and are
    bytes (whatever the other elements are), [bytes16ToField] needs no
    hasher and returns a value below [2 ^ 128] whose sixteen
    little-endian bytes are exactly the bytes read: nothing is lost or
    reduced. *)
Theorem bytes16ToField_round_trip (bytes : list Z) (start : nat) inst :
  Forall (fun b => 0 <= b < 256) (firstn 16 (skipn start bytes)) ->
  (start + 16 <= List.length bytes)%nat ->
  exists r,
    bytes16ToField bytes start inst = Ok r
    /\ 0 <= r < 2 ^ 128
    /\ le_bytes 16 r = firstn 16 (skipn start bytes).
Proof.
  intros Hall Hlen. now apply bytes16ToField_le_bytes.
Qed.

Lemma bytes16ToField_round_trip_witness :
  exists r,
    bytes16ToField (repeat 7 16 ++ [1000]) 0 None = Ok r
    /\ 0 <= r < 2 ^ 128
    /\ le_bytes 16 r = firstn 16 (skipn 0 (repeat 7 16 ++ [1000])).
Proof.
  apply (bytes16ToField_round_trip (repeat 7 16 ++ [1000]) 0 None).
  - simpl. repeat constructor; lia.
  - simpl. lia.
Defined.

(** X9: two 32-byte identities that give [pubkeyToIndex] the same pair of
    hash inputs (the same [low] and the same [high]) are the same
    identity; distinct identities can only share a leaf index through a
    collision of the hasher. *)
Theorem distinct_identities_distinct_hash_inputs (X Y : list Z) inst :
  identity32 X ->
  identity32 Y ->
  bytes16ToField X 0 inst = bytes16ToField Y 0 inst ->
  bytes16ToField X 16 inst = bytes16ToField Y 16 inst ->
  X = Y.
Proof.
  intros [HlX HbX] [HlY HbY] Elow Ehigh.
  destruct (bytes16ToField_le_bytes X 0 inst
              (Forall_firstn_skipn _ _ HbX 16 0) ltac:(lia))
    as (r0 & E0 & _ & R0).
  destruct (bytes16ToField_le_bytes Y 0 inst
              (Forall_firstn_skipn _ _ HbY 16 0) ltac:(lia))
    as (r0' & E0' & _ & R0').
  destruct (bytes16ToField_le_bytes X 16 inst
              (Forall_firstn_skipn _ _ HbX 16 16) ltac:(lia))
    as (r1 & E1 & _ & R1).
  destruct (bytes16ToField_le_bytes Y 16 inst
              (Forall_firstn_skipn _ _ HbY 16 16) ltac:(lia))
    as (r1' & E1' & _ & R1').
  rewrite E0, E0' in Elow. rewrite E1, E1' in Ehigh.
  injection Elow as <-. injection Ehigh as <-.
  cbn [skipn] in R0, R0'.
  rewrite <- (firstn_skipn 16 X), <- (firstn_skipn 16 Y).
  rewrite <- R0, <- R0'. f_equal.
  rewrite <- (firstn_all (skipn 16 X)), <- (firstn_all (skipn 16 Y)).
  rewrite !length_skipn, HlX, HlY.
  change (32 - 16)%nat with 16%nat. congruence.
Qed.

Lemma distinct_identities_distinct_hash_inputs_witness :
  identity_A = identity_A.
Proof.
  apply (distinct_identities_distinct_hash_inputs identity_A identity_A
           None).
  - apply identity32_sample. lia.
  - apply identity32_sample. lia.
  - reflexivity.
  - reflexivity.
Defined.

Lemma lower_hex_digit_range c d :
  lower_hex_digit c = Some d -> 0 <= d < 16.
Proof.
  destruct c as [[] [] [] [] [] [] [] []]; vm_compute;
    intros E; try discriminate; injection E as <-; split; congruence.
Qed.

Lemma big_endian_hex_range s : forall r,
  big_endian_hex s = Some r -> 0 <= r < 16 ^ Z.of_nat (String.length s).
Proof.
  induction s as [|c s IH]; intros r E; cbn [big_endian_hex] in E.
  - injection E as <-. simpl. lia.
  - destruct (lower_hex_digit c) as [d|] eqn:Ed; [|discriminate].
    destruct (big_endian_hex s) as [r'|]; [|discriminate].
    injection E as <-. apply lower_hex_digit_range in Ed.
    specialize (IH r' eq_refl). cbn [String.length].
    rewrite Nat2Z.inj_succ, Z.pow_succ_r by lia. nia.
Qed.

(** The characters after "0x" in [fieldToHex f], for [f >= 0]. *)
Lemma fieldToHex_body f :
  0 <= f ->
  exists body,
    fieldToHex f = "0x" ++ body
    /\ String.length body
       = (64 - String.length (digits 16 f) + String.length (digits 16 f))%nat
    /\ Forall is_lower_hex (list_ascii_of_string body)
    /\ big_endian_hex body = Some f.
Proof.
  intros Hf.
  exists (padStart 64 "0" (toString_radix 16 f)).
  split; [reflexivity|].
  assert (Es : toString_radix 16 f = digits 16 f).
  { unfold toString_radix. destruct (Z.ltb_spec f 0); [lia | reflexivity]. }
  rewrite Es. set (s := digits 16 f).
  assert (Hparse : parse_digits 16 s 0 = Some f)
    by (apply parse_digits_digits; lia).
  assert (Hchars : Forall (fun c => exists d, 0 <= d < 16 /\ c = digit_char d)
                     (list_ascii_of_string s)).
  { apply digits_fuel_chars; [lia | lia | constructor]. }
  destruct (big_endian_hex_of_parse s 0 f Hchars Hparse)
    as (Hhex & r & Er & Ex).
  assert (r = f) by lia. subst r.
  unfold padStart.
  destruct (pad_zero_spec (64 - String.length s) "0" s (or_introl eq_refl))
    as (Hl & Hv & Hh).
  split; [exact Hl|]. split; [now apply Hh | now rewrite Hv].
Qed.

(** X10: [fieldToHex] never truncates and can be decoded.  For every
    [f >= 0] the text after "0x" consists of lowercase hexadecimal digits
    whose big-endian value is [f]; it has at least 64 characters, and
    exactly 64 if and only if [f < 16 ^ 64].  Hence two non-negative
    values with the same text are equal. *)
Theorem fieldToHex_decodes (f : Z) :
  0 <= f ->
  (exists body,
      fieldToHex f = "0x" ++ body
      /\ Forall is_lower_hex (list_ascii_of_string body)
      /\ big_endian_hex body = Some f
      /\ (64 <= String.length body)%nat
      /\ (String.length body = 64%nat <-> f < 16 ^ 64))
  /\ forall g, 0 <= g -> fieldToHex f = fieldToHex g -> f = g.
Proof.
  intros Hf.
  destruct (fieldToHex_body f Hf) as (body & E & Hl & Hhex & Hv).
  split.
  - exists body. split; [exact E|]. split; [exact Hhex|].
    split; [exact Hv|]. split; [lia|]. split.
    + intros H64. apply big_endian_hex_range in Hv.
      rewrite H64 in Hv. apply Hv.
    + intros Hlt.
      assert ((String.length (digits 16 f) <= 64)%nat); [|lia].
      apply (digits_fuel_length 16 ltac:(lia)); [lia|].
      change (Z.of_nat 64) with 64. lia.
  - intros g Hg Efg.
    destruct (fieldToHex_body g Hg) as (body' & E' & _ & _ & Hv').
    rewrite E, E' in Efg. injection Efg as Eb. congruence.
Qed.

Lemma fieldToHex_decodes_witness :
  (exists body,
      fieldToHex (16 ^ 64) = "0x" ++ body
      /\ Forall is_lower_hex (list_ascii_of_string body)
      /\ big_endian_hex body = Some (16 ^ 64)
      /\ (64 <= String.length body)%nat
      /\ (String.length body = 64%nat <-> 16 ^ 64 < 16 ^ 64))
  /\ forall g, 0 <= g -> fieldToHex (16 ^ 64) = fieldToHex g -> 16 ^ 64 = g.
Proof.
  apply (fieldToHex_decodes (16 ^ 64)). lia.
Defined.

(* ------------------------------------------------------------------------- *)
(** ** What a client can reach *)

Lemma In_replace_engine t n this l :
  In t (replace_engine n this l) -> t = this \/ In t l.
Proof.
  revert n. induction l as [|x l IH]; intros [|n]; simpl; try tauto.
  - intros [<-|Hin]; auto.
  - intros [<-|Hin]; auto. destruct (IH n Hin); auto.
Qed.

Lemma ok_object_after {A} (m : method A) this inst a this' :
  m this inst = Ok (a, this') -> object_after (m this inst) this = this'.
Proof. intros ->. reflexivity. Qed.

Lemma remove_nth_incl {A} k (l : list A) : incl (remove_nth k l) l.
Proof.
  revert k. induction l as [|x l IH]; intros [|k]; cbn [remove_nth];
    try apply incl_refl.
  - apply incl_tl, incl_refl.
  - intros y [<-|Hy]; [now left | right; now apply (IH k)].
Qed.


(** Every suspended call waits for a hasher that [buildPoseidon()]
    delivers. *)
Lemma reachable_suspended buildPoseidon w :
  reachable buildPoseidon w ->
  forall q, In q (suspended w) -> exists n, q = buildPoseidon n.
Proof.
  induction 1 as [|w c w' r R IH E|w k w' R IH E]; intros q Hq.
  - destruct Hq.
  - assert (Hmethod : forall A engine (m : method A) wrap,
               call_method w engine m wrap = Some (w', r) ->
               suspended w' = suspended w).
    { intros A engine m wrap Ec. unfold call_method in Ec.
      destruct (nth_error (engines w) engine) as [this|]; [|discriminate].
      destruct (m this (poseidonInstance w)) as [[a this']|e];
        injection Ec as <- _; reflexivity. }
    destruct c as [ | | | |engine pubkey v| | | | | ]; cbn [exec] in E;
      try (apply Hmethod in E; rewrite E in Hq; now apply IH).
    + injection E as <- _.
      destruct (initPoseidon (poseidonInstance w)); [now apply IH|].
      cbn [suspended] in Hq. apply in_app_or in Hq.
      destruct Hq as [Hq|[<-|[]]]; [now apply IH | now eexists].
    + injection E as <- _. now apply IH.
    + injection E as <- _. now apply IH.
    + destruct (constructor (poseidonInstance w)); injection E as <- _;
        now apply IH.
  - unfold resume in E.
    destruct (nth_error (suspended w) k); [|discriminate].
    injection E as <-. cbn [suspended] in Hq.
    apply IH. now apply (remove_nth_incl k).
Qed.



(** Two overlapping calls of [initPoseidon] both build and both assign:
    the second assignment replaces the hasher the first one installed. *)
Lemma overlapping_calls_replace_the_hasher :
  reachable two_builds world_first_resumed
  /\ poseidonInstance world_first_resumed = Some mock_hash
  /\ resume world_first_resumed 0 = Some world_second_resumed
  /\ poseidonInstance world_second_resumed = Some other_hash
  /\ mock_hash 0 0 <> other_hash 0 0.
Proof.
  split; [|split; [reflexivity|split; [reflexivity|split; [reflexivity|]]]].
  - apply (reachable_resume two_builds world_two_suspended O);
      [|reflexivity].
    apply (reachable_step two_builds world_one_suspended Call_initPoseidon
             _ (Ok V_promise)); [|reflexivity].
    apply (reachable_step two_builds initial_world Call_initPoseidon
             _ (Ok V_promise)); [|reflexivity].
    apply reachable_initial.
  - vm_compute. discriminate.
Qed.

(** X12: provided every call of [buildPoseidon()] delivers the same
    hasher [P], every engine a client can hold was built by the
    constructor and insertions under [P]: in each world reached by calls
    and resumptions, overlapping calls of [initPoseidon] included, the
    hasher is absent or is [P], and each engine is [built_by] it for some
    history of insertions. *)
Theorem reachable_engines_are_built (buildPoseidon : nat -> Poseidon)
  (P : Poseidon) w :
  (forall n, buildPoseidon n = P) ->
  reachable buildPoseidon w ->
  (poseidonInstance w = None \/ poseidonInstance w = Some P)
  /\ forall t, In t (engines w) -> exists history, built_by P history t.
Proof.
  intros Hsame R.
  induction R as [|w c w' r R [Hinst Hbuilt] E|w k w' R [Hinst Hbuilt] E].
  - split; [now left | intros t []].
  - assert (Hread : forall A engine (m : method A) wrap,
               (forall this inst, object_after (m this inst) this = this) ->
               call_method w engine m wrap = Some (w', r) ->
               (poseidonInstance w' = None \/ poseidonInstance w' = Some P)
               /\ forall t, In t (engines w') ->
                            exists history, built_by P history t).
    { intros A engine m wrap Hro Ec. unfold call_method in Ec.
      destruct (nth_error (engines w) engine) as [this|] eqn:En;
        [|discriminate].
      pose proof (Hro this (poseidonInstance w)) as Ho.
      destruct (m this (poseidonInstance w)) as [[a this']|e];
        injection Ec as <- _; cbn [poseidonInstance engines].
      - split; [exact Hinst|]. intros t Hin.
        apply In_replace_engine in Hin. cbn [object_after] in Ho.
        destruct Hin as [->|Hin]; [|now apply Hbuilt].
        subst this'. apply Hbuilt. eapply nth_error_In. eassumption.
      - split; assumption. }
    destruct c as [ | | | |engine pubkey v| | | | | ]; cbn [exec] in E.
    + injection E as <- _.
      destruct (initPoseidon (poseidonInstance w)); split; assumption.
    + injection E as <- _. split; assumption.
    + injection E as <- _. split; assumption.
    + destruct Hinst as [Hi|Hi]; rewrite Hi in E.
      * rewrite constructor_uninitialized in E. injection E as <- _.
        split; [now left | exact Hbuilt].
      * destruct (constructor (Some P)) as [t0|e] eqn:Ec;
          injection E as <- _; cbn [poseidonInstance engines].
        -- split; [now right|]. intros t Hin.
           apply in_app_or in Hin. destruct Hin as [Hin|[<-|[]]].
           ++ now apply Hbuilt.
           ++ exists []. now constructor.
        -- split; [now right | exact Hbuilt].
    + unfold call_method in E.
      destruct (nth_error (engines w) engine) as [this|] eqn:En;
        [|discriminate].
      destruct Hinst as [Hi|Hi]; rewrite Hi in E.
      * destruct (pubkeyToIndex_None_throws pubkey) as (e & Ee).
        unfold insert, bind in E. rewrite Ee in E. injection E as <- _.
        split; [now left | exact Hbuilt].
      * destruct (insert pubkey v this (Some P))
          as [[[] this']|e] eqn:Ei; injection E as <- _;
          cbn [poseidonInstance engines].
        -- split; [now right|]. intros t Hin.
           apply In_replace_engine in Hin.
           destruct Hin as [->|Hin]; [|now apply Hbuilt].
           destruct (Hbuilt this (nth_error_In _ _ En)) as (history & B).
           exists (history ++ [(pubkey, v ?? 1)])%list.
           eapply built_insert; [exact B|]. exact Ei.
        -- split; [now right | exact Hbuilt].
    + eapply Hread; [|exact E]. intros. apply get_read_only.
    + eapply Hread; [|exact E]. intros. apply isBlacklisted_read_only.
    + eapply Hread; [|exact E]. intros. apply getRoot_read_only.
    + eapply Hread; [|exact E]. intros. apply getMerkleProof_read_only.
    + eapply Hread; [|exact E]. intros. reflexivity.
  - pose proof E as E'. unfold resume in E'.
    destruct (nth_error (suspended w) k) as [built|] eqn:En;
      [|discriminate].
    injection E' as <-. cbn [poseidonInstance engines]. split; [|exact Hbuilt].
    right. unfold initPoseidon_resume. f_equal.
    destruct (reachable_suspended _ _ R built (nth_error_In _ _ En))
      as (n & ->).
    apply Hsame.
Qed.

Lemma constructor_mock_hash : constructor (Some mock_hash) = Ok engine_fresh.
Proof. vm_compute. reflexivity. Qed.

Lemma reachable_engines_are_built_witness :
  (poseidonInstance world_with_engine = None
   \/ poseidonInstance world_with_engine = Some mock_hash)
  /\ forall t, In t (engines world_with_engine) ->
               exists history, built_by mock_hash history t.
Proof.
  apply (reachable_engines_are_built (fun _ => mock_hash) mock_hash).
  - reflexivity.
  - apply (reachable_resume _
             {| poseidonInstance := Some mock_hash;
                engines := [engine_fresh]; builds := 2;
                suspended := [mock_hash] |} O); [|reflexivity].
    apply (reachable_step _
             {| poseidonInstance := Some mock_hash; engines := [];
                builds := 2; suspended := [mock_hash] |}
             Call_new _ (Ok (V_engine 0))).
    + apply (reachable_resume _
               {| poseidonInstance := None; engines := []; builds := 2;
                  suspended := [mock_hash; mock_hash] |} O);
        [|reflexivity].
      apply (reachable_step _
               {| poseidonInstance := None; engines := []; builds := 1;
                  suspended := [mock_hash] |}
               Call_initPoseidon _ (Ok V_promise)); [|reflexivity].
      apply (reachable_step _ initial_world Call_initPoseidon _
               (Ok V_promise)); [apply reachable_initial | reflexivity].
    + cbn [exec poseidonInstance engines builds suspended].
      rewrite constructor_mock_hash. reflexivity.
Defined.

(* ========================================================================= *)
(** * Instruction data of the clients *)

Lemma Uint8Array_set_middle (source : list Z) offset (a b c : list Z) :
  List.length a = offset ->
  List.length b = List.length source ->
  Uint8Array_set source offset (a ++ b ++ c)%list
  = Done (a ++ map ToUint8 source ++ c)%list.
Proof.
  intros Ha Hb. unfold Uint8Array_set.
  rewrite !length_app.
  destruct (Nat.ltb_spec (List.length a + (List.length b + List.length c))
              (List.length source + offset)); [lia|].
  f_equal. f_equal.
  - rewrite <- Ha, firstn_app, Nat.sub_diag, firstn_all. simpl.
    now rewrite app_nil_r.
  - f_equal. rewrite <- Ha, <- Hb, app_assoc.
    rewrite <- length_app. rewrite skipn_app, Nat.sub_diag, skipn_all.
    reflexivity.
Qed.

Lemma Uint8Array_set_too_long (source : list Z) offset (data : list Z) :
  (List.length data < List.length source + offset)%nat ->
  Uint8Array_set source offset data = Raised RangeError_offset_out_of_bounds.
Proof.
  intros Hl. unfold Uint8Array_set.
  destruct (Nat.ltb_spec (List.length data) (List.length source + offset));
    [reflexivity | lia].
Qed.

Lemma setBigUint64_le_middle value offset (a b c : list Z) :
  List.length a = offset ->
  List.length b = 8%nat ->
  setBigUint64_le offset value (a ++ b ++ c)%list
  = Done (a ++ le_bytes 8 value ++ c)%list.
Proof.
  intros Ha Hb. unfold setBigUint64_le.
  rewrite !length_app.
  destruct (Nat.ltb_spec (List.length a + (List.length b + List.length c))
              (offset + 8)); [lia|].
  f_equal. f_equal.
  - rewrite <- Ha, firstn_app, Nat.sub_diag, firstn_all. simpl.
    now rewrite app_nil_r.
  - f_equal. rewrite <- Ha, <- Hb, app_assoc.
    rewrite <- length_app. rewrite skipn_app, Nat.sub_diag, skipn_all.
    reflexivity.
Qed.

Lemma firstn_repeat_le {A} (a : A) k m :
  (k <= m)%nat -> firstn k (repeat a m) = repeat a k.
Proof.
  intros Hk. replace m with (k + (m - k))%nat by lia.
  rewrite repeat_app, firstn_app, repeat_length, Nat.sub_diag.
  rewrite <- (repeat_length a k) at 1. rewrite firstn_all. simpl.
  apply app_nil_r.
Qed.

Lemma le_value_le_bytes_any n : forall k,
  le_value (le_bytes n k) = k mod 256 ^ Z.of_nat n.
Proof.
  induction n as [|n IH]; intros k; cbn [le_bytes le_value].
  - now rewrite Z.mod_1_r.
  - rewrite IH, Nat2Z.inj_succ, Z.pow_succ_r by lia.
    assert (0 < 256 ^ Z.of_nat n) by (apply Z.pow_pos_nonneg; lia).
    rewrite Z.rem_mul_r by lia. reflexivity.
Qed.

Lemma map_ToUint8_bytes (bytes : list Z) :
  Forall (fun b => 0 <= b < 256) bytes -> map ToUint8 bytes = bytes.
Proof.
  induction 1 as [|b bytes Hb _ IH]; cbn [map]; [reflexivity|].
  rewrite IH. unfold ToUint8. now rewrite Z.mod_small.
Qed.

(** X13: the instruction data of [transferSol].  For a proof of at most
    464 bytes and a public witness of exactly 76 bytes the data are 473
    bytes: the tag 2, the amount as eight little-endian bytes (that is,
    modulo [2 ^ 64]), then 388 bytes that are the proof cut or
    zero-filled to that size, then the witness.  With a 388-byte proof
    this is the tag, the amount, the proof and the witness, one after
    the other. *)
Theorem transferSol_data_layout (amount : Z) (proofData witnessData : list Z) :
  Forall (fun b => 0 <= b < 256) proofData ->
  Forall (fun b => 0 <= b < 256) witnessData ->
  (List.length proofData <= 464)%nat ->
  List.length witnessData = 76%nat ->
  transferSol_data amount proofData witnessData
  = Done (2 :: le_bytes 8 amount
            ++ firstn 388 (proofData
                           ++ repeat 0 (388 - List.length proofData))
            ++ witnessData)%list
  /\ le_value (le_bytes 8 amount) = amount mod 2 ^ 64
  /\ (List.length proofData = 388%nat ->
      transferSol_data amount proofData witnessData
      = Done (2 :: le_bytes 8 amount ++ proofData ++ witnessData)%list).
Proof.
  intros Hp Hw Hlp Hlw.
  assert (Emain : transferSol_data amount proofData witnessData
                  = Done (2 :: le_bytes 8 amount
                            ++ firstn 388
                                 (proofData
                                  ++ repeat 0 (388 - List.length proofData))
                            ++ witnessData)%list).
  { unfold transferSol_data.
    change (Uint8Array_store 0 INSTRUCTION_TRANSFER_SOL
              (Uint8Array_new (1 + 8 + 388 + 76)))
      with ([2] ++ repeat 0 8 ++ repeat 0 464)%list.
    rewrite setBigUint64_le_middle by reflexivity. cbn [and_then].
    set (gap := (464 - List.length proofData)%nat).
    replace (repeat 0 464)
      with (repeat 0 (List.length proofData) ++ repeat 0 gap)%list
      by (rewrite <- repeat_app; f_equal; lia).
    rewrite (app_assoc [2]).
    rewrite Uint8Array_set_middle;
      [| rewrite length_app, le_bytes_length; reflexivity
       | apply repeat_length].
    cbn [and_then]. rewrite (map_ToUint8_bytes proofData Hp).
    set (head := ([2] ++ le_bytes 8 amount)%list).
    set (body := (proofData ++ repeat 0 gap)%list).
    assert (Hbody : List.length body = 464%nat).
    { unfold body, gap. rewrite length_app, repeat_length. lia. }
    rewrite <- (firstn_skipn 388 body) at 1.
    rewrite (app_assoc head).
    rewrite <- (app_nil_r (skipn 388 body)).
    rewrite Uint8Array_set_middle.
    - rewrite (map_ToUint8_bytes witnessData Hw), app_nil_r.
      unfold head. rewrite <- app_assoc. cbn [app]. do 3 f_equal.
      unfold body, gap.
      destruct (Nat.le_gt_cases (List.length proofData) 388) as [Hle|Hgt].
      + rewrite !firstn_app, !firstn_repeat_le by lia.
        reflexivity.
      + rewrite !firstn_app.
        replace (388 - List.length proofData)%nat with 0%nat by lia.
        reflexivity.
    - unfold head.
      rewrite !length_app, le_bytes_length, length_firstn, Hbody.
      reflexivity.
    - rewrite length_skipn, Hbody, Hlw. reflexivity. }
  split; [exact Emain|]. split.
  - apply (le_value_le_bytes_any 8).
  - intros H388. rewrite Emain, H388. cbn [Nat.sub repeat].
    rewrite app_nil_r, <- H388, firstn_all. reflexivity.
Qed.

Lemma transferSol_data_layout_witness :
  transferSol_data (2 ^ 64 + 7) (repeat 1 388) (repeat 3 76)
  = Done (2 :: le_bytes 8 (2 ^ 64 + 7)
            ++ firstn 388 (repeat 1 388
                           ++ repeat 0 (388 - List.length (repeat 1 388)))
            ++ repeat 3 76)%list
  /\ le_value (le_bytes 8 (2 ^ 64 + 7)) = (2 ^ 64 + 7) mod 2 ^ 64
  /\ (List.length (repeat 1 388) = 388%nat ->
      transferSol_data (2 ^ 64 + 7) (repeat 1 388) (repeat 3 76)
      = Done (2 :: le_bytes 8 (2 ^ 64 + 7)
                ++ repeat 1 388 ++ repeat 3 76)%list).
Proof.
  apply (transferSol_data_layout (2 ^ 64 + 7) (repeat 1 388) (repeat 3 76)).
  - apply Forall_forall. intros x Hx. apply repeat_spec in Hx. lia.
  - apply Forall_forall. intros x Hx. apply repeat_spec in Hx. lia.
  - rewrite repeat_length. lia.
  - apply repeat_length.
Defined.

Lemma Uint8Array_set_length source offset data data' :
  Uint8Array_set source offset data = Done data' ->
  List.length data' = List.length data.
Proof.
  unfold Uint8Array_set.
  destruct (Nat.ltb_spec (List.length data) (List.length source + offset));
    [discriminate|].
  intros [= <-].
  rewrite !length_app, length_map, length_firstn, length_skipn. lia.
Qed.

(** X14: [transferSol] never sends oversized parts: with a proof of more
    than 464 bytes or a public witness of more than 76 bytes, building the
    instruction data raises a RangeError. *)
Theorem transferSol_data_rejects_oversize (amount : Z)
  (proofData witnessData : list Z) :
  (464 < List.length proofData)%nat \/ (76 < List.length witnessData)%nat ->
  transferSol_data amount proofData witnessData
  = Raised RangeError_offset_out_of_bounds.
Proof.
  intros Hbig. unfold transferSol_data.
  change (Uint8Array_store 0 INSTRUCTION_TRANSFER_SOL
            (Uint8Array_new (1 + 8 + 388 + 76)))
    with ([2] ++ repeat 0 8 ++ repeat 0 464)%list.
  rewrite setBigUint64_le_middle by reflexivity. cbn [and_then].
  set (data1 := ([2] ++ le_bytes 8 amount ++ repeat 0 464)%list).
  assert (Hl1 : List.length data1 = 473%nat).
  { unfold data1. rewrite !length_app, le_bytes_length, repeat_length.
    reflexivity. }
  destruct (Uint8Array_set proofData 9 data1) as [data2|e] eqn:E2.
  - cbn [and_then]. apply Uint8Array_set_too_long.
    rewrite (Uint8Array_set_length _ _ _ _ E2), Hl1.
    destruct Hbig as [Hp|Hw]; [|lia].
    rewrite Uint8Array_set_too_long in E2 by lia. discriminate.
  - cbn [and_then]. unfold Uint8Array_set in E2.
    destruct (Nat.ltb_spec (List.length data1) (List.length proofData + 9));
      [|discriminate].
    now injection E2 as <-.
Qed.

Lemma transferSol_data_rejects_oversize_witness :
  transferSol_data 1 (repeat 0 388) (repeat 0 77)
  = Raised RangeError_offset_out_of_bounds.
Proof.
  apply (transferSol_data_rejects_oversize 1 (repeat 0 388) (repeat 0 77)).
  right. rewrite repeat_length. lia.
Defined.

Lemma skipn_repeat_sub {A} (a : A) k m :
  skipn k (repeat a m) = repeat a (m - k).
Proof.
  revert m. induction k as [|k IH]; intros [|m]; simpl; auto.
Qed.

Lemma setSmtRoot_data_spec (smtRoot : list Z) :
  setSmtRoot_data smtRoot
  = if (List.length smtRoot <=? 32)%nat
    then Done (1 :: map ToUint8 smtRoot
                 ++ repeat 0 (32 - List.length smtRoot))%list
    else Raised RangeError_offset_out_of_bounds.
Proof.
  unfold setSmtRoot_data.
  change (Uint8Array_store 0 INSTRUCTION_SET_SMT_ROOT (Uint8Array_new (1 + 32)))
    with ([1] ++ repeat 0 32)%list.
  destruct (Nat.leb_spec (List.length smtRoot) 32) as [Hle|Hgt].
  - replace (repeat 0 32)
      with (repeat 0 (List.length smtRoot)
            ++ repeat 0 (32 - List.length smtRoot))%list
      by (rewrite <- repeat_app; f_equal; lia).
    rewrite Uint8Array_set_middle;
      [reflexivity | reflexivity | apply repeat_length].
  - apply Uint8Array_set_too_long.
    rewrite length_app, repeat_length. simpl. lia.
Qed.

(** X15: the instruction data of [setSmtRoot] are the tag 1 followed by
    the bytes of the root, zero-filled to 32 bytes when the root is
    shorter; a root of more than 32 bytes raises a RangeError. *)
Theorem setSmtRoot_data_layout (smtRoot : list Z) :
  Forall (fun b => 0 <= b < 256) smtRoot ->
  setSmtRoot_data smtRoot
  = if (List.length smtRoot <=? 32)%nat
    then Done (1 :: smtRoot ++ repeat 0 (32 - List.length smtRoot))%list
    else Raised RangeError_offset_out_of_bounds.
Proof.
  intros Hb. rewrite setSmtRoot_data_spec.
  now rewrite (map_ToUint8_bytes smtRoot Hb).
Qed.

Lemma setSmtRoot_data_layout_witness :
  setSmtRoot_data [7; 8]
  = if (List.length [7; 8] <=? 32)%nat
    then Done (1 :: [7; 8] ++ repeat 0 (32 - List.length [7; 8]))%list
    else Raised RangeError_offset_out_of_bounds.
Proof.
  apply (setSmtRoot_data_layout [7; 8]).
  repeat constructor; lia.
Defined.

Lemma lower_hex_digit_is_lower_hex c d :
  lower_hex_digit c = Some d -> is_lower_hex c.
Proof.
  unfold is_lower_hex.
  destruct c as [[] [] [] [] [] [] [] []]; vm_compute;
    intros E; try discriminate;
    repeat (first [left; reflexivity | right]).
Qed.

(** What [parseInt(chunk, 16)] and the conversion to a byte make of two
    lowercase hexadecimal digits. *)
Lemma parse_chunk a b :
  is_lower_hex a -> is_lower_hex b ->
  is_line_terminator a = false /\ is_line_terminator b = false
  /\ exists da db,
      lower_hex_digit a = Some da /\ lower_hex_digit b = Some db
      /\ ToUint8_number (parseInt16 (String a (String b ""))) = 16 * da + db.
Proof.
  unfold is_lower_hex. cbn [list_ascii_of_string In].
  intros Ha Hb.
  repeat (destruct Ha as [<-|Ha]; [|]); try contradiction;
    repeat (destruct Hb as [<-|Hb]; [|]); try contradiction;
    (split; [reflexivity|]; split; [reflexivity|];
     do 2 eexists; split; [vm_compute; reflexivity|];
     split; [vm_compute; reflexivity|]; vm_compute; reflexivity).
Qed.

Lemma le_value_snoc bytes x :
  le_value (bytes ++ [x])%list
  = le_value bytes + x * 256 ^ Z.of_nat (List.length bytes).
Proof.
  induction bytes as [|b bytes IH]; cbn [app le_value List.length].
  - change (256 ^ Z.of_nat 0) with 1. lia.
  - rewrite IH, Nat2Z.inj_succ, Z.pow_succ_r by lia. ring.
Qed.

(** Decoding a run of [2 * n] lowercase hexadecimal digits two by two. *)
Lemma decode_pairs n : forall body f,
  String.length body = (2 * n)%nat ->
  Forall is_lower_hex (list_ascii_of_string body) ->
  big_endian_hex body = Some f ->
  exists bytes,
    map (fun byte => ToUint8_number (parseInt16 byte)) (match_pairs body)
    = bytes
    /\ List.length bytes = n
    /\ Forall (fun b => 0 <= b < 256) bytes
    /\ le_value (rev bytes) = f.
Proof.
  induction n as [|n IH]; intros body f Hlen Hhex Hv.
  - destruct body; [|discriminate]. injection Hv as <-.
    exists []. repeat split. constructor.
  - destruct body as [|a [|b rest]]; cbn [String.length] in Hlen; try lia.
    cbn [list_ascii_of_string] in Hhex.
    pose proof (Forall_inv Hhex) as Ha.
    pose proof (Forall_inv (Forall_inv_tail Hhex)) as Hb.
    pose proof (Forall_inv_tail (Forall_inv_tail Hhex)) as Hrest.
    destruct (parse_chunk a b Ha Hb) as (La & Lb & da & db & Ea & Eb & Ep).
    cbn [big_endian_hex] in Hv. rewrite Ea, Eb in Hv.
    destruct (big_endian_hex rest) as [r|] eqn:Er; [|discriminate].
    injection Hv as <-.
    destruct (IH rest r ltac:(lia) Hrest Er)
      as (bytes & Emap & Hn & Hrange & Hval).
    exists (16 * da + db :: bytes).
    cbn [match_pairs]. rewrite La, Lb. cbn [orb map].
    rewrite Ep, Emap.
    apply lower_hex_digit_range in Ea, Eb.
    split; [reflexivity|]. split; [simpl; lia|].
    split; [constructor; [lia | assumption]|].
    cbn [rev]. rewrite le_value_snoc, length_rev, Hval, Hn.
    replace (String.length rest) with (2 * n)%nat by lia.
    change (Z.pow_pos 16 (Pos.of_succ_nat (2 * n)))
      with (16 ^ Z.of_nat (S (2 * n))).
    rewrite Nat2Z.inj_succ, Z.pow_succ_r by lia.
    replace (Z.of_nat (2 * n)) with (2 * Z.of_nat n) by lia.
    rewrite Z.pow_mul_r by lia. change (16 ^ 2) with 256. ring.
Qed.

(** X16: the root sent on chain.  For a root [0 <= f < 16 ^ 64] the buffer
    the transfer test derives from [fieldToHex f] (drop "0x", cut into
    pairs of characters, read each pair as a hexadecimal number) holds the
    32 bytes of [f], most significant first, and [setSmtRoot] then sends
    the tag 1 followed by these 32 bytes. *)
Theorem smt_root_buffer_is_big_endian (f : Z) :
  0 <= f < 16 ^ 64 ->
  smtRootBuffer (fieldToHex f) = Done (rev (le_bytes 32 f))
  /\ setSmtRoot_data (rev (le_bytes 32 f))
     = Done (1 :: rev (le_bytes 32 f)).
Proof.
  intros Hf.
  destruct (fieldToHex_body f ltac:(lia)) as (body & E & Hl & Hhex & Hv).
  assert (Hd : (String.length (digits 16 f) <= 64)%nat).
  { apply (digits_fuel_length 16 ltac:(lia)); [lia|].
    change (Z.of_nat 64) with 64. lia. }
  destruct (decode_pairs 32 body f ltac:(lia) Hhex Hv)
    as (bytes & Emap & Hn & Hrange & Hval).
  assert (Ebytes : bytes = rev (le_bytes 32 f)).
  { rewrite <- (rev_involutive bytes). f_equal.
    rewrite <- Hval. rewrite <- Hn, <- length_rev.
    symmetry. apply le_bytes_le_value.
    apply Forall_forall. intros x Hx. apply in_rev in Hx.
    revert x Hx. now apply Forall_forall. }
  split.
  - unfold smtRootBuffer. rewrite E.
    change (String_slice 2 ("0x" ++ body)) with body.
    destruct (match_pairs body) as [|chunk chunks] eqn:Em.
    + simpl in Emap. subst bytes. discriminate.
    + rewrite Emap, Ebytes. reflexivity.
  - rewrite setSmtRoot_data_spec, length_rev, le_bytes_length.
    cbn [Nat.leb Nat.sub repeat]. rewrite app_nil_r.
    rewrite map_ToUint8_bytes; [reflexivity|].
    apply Forall_forall. intros x Hx. apply in_rev in Hx.
    revert x Hx. apply Forall_forall. apply le_bytes_range.
Qed.

Lemma smt_root_buffer_is_big_endian_witness :
  smtRootBuffer (fieldToHex 258) = Done (rev (le_bytes 32 258))
  /\ setSmtRoot_data (rev (le_bytes 32 258))
     = Done (1 :: rev (le_bytes 32 258)).
Proof.
  apply (smt_root_buffer_is_big_endian 258). split; [lia | reflexivity].
Defined.

Lemma lxor_255 (b : Z) : 0 <= b < 256 -> Z.lxor b 255 = 255 - b.
Proof.
  intros Hb.
  assert (Hall : forallb (fun n => Z.lxor (Z.of_nat n) 255 =? 255 - Z.of_nat n)
                   (seq 0 256) = true) by (vm_compute; reflexivity).
  rewrite forallb_forall in Hall.
  specialize (Hall (Z.to_nat b)). rewrite Z2Nat.id in Hall by lia.
  apply Z.eqb_eq, Hall, in_seq. lia.
Qed.

(** X17: the tampering of the negative test.  On a buffer of bytes,
    [proof[0] ^= 0xff] replaces the first byte [b] by [255 - b] and leaves
    the rest alone; so a proof that is not empty is always changed, doing
    it twice restores the proof, and an empty proof is left as it is. *)
Theorem corrupt_proof_flips_first_byte (proof : list Z) :
  Forall (fun b => 0 <= b < 256) proof ->
  corrupt_proof proof
  = match proof with
    | [] => []
    | b :: rest => (255 - b) :: rest
    end
  /\ (proof <> [] -> corrupt_proof proof <> proof)
  /\ corrupt_proof (corrupt_proof proof) = proof.
Proof.
  intros Hbytes. destruct proof as [|b rest].
  - repeat split. intros Hne. now destruct Hne.
  - pose proof (Forall_inv Hbytes) as Hb. cbv beta in Hb.
    assert (E : corrupt_proof (b :: rest) = (255 - b) :: rest).
    { unfold corrupt_proof, Uint8Array_store, ToUint8. cbn [nth array_set].
      rewrite lxor_255 by assumption. rewrite Z.mod_small by lia.
      reflexivity. }
    split; [exact E|]. split.
    + intros _. rewrite E. intros Heq.
      assert (Hhead : 255 - b = b) by congruence. lia.
    + rewrite E. unfold corrupt_proof, Uint8Array_store, ToUint8.
      cbn [nth array_set]. rewrite lxor_255 by lia.
      rewrite Z.mod_small by lia. f_equal. lia.
Qed.

Lemma corrupt_proof_flips_first_byte_witness :
  corrupt_proof [7; 9] = [248; 9]
  /\ ([7; 9] <> [] -> corrupt_proof [7; 9] <> [7; 9])
  /\ corrupt_proof (corrupt_proof [7; 9]) = [7; 9].
Proof.
  apply (corrupt_proof_flips_first_byte [7; 9]).
  repeat constructor; lia.
Defined.
